(** * grid3d: the ray particle of the 3D grid demo

    Shallow embedding of [src/grid3d.cpp]: the [Ray] class (motion model,
    sphere collision test, cube boundary test, randomised reset) and the
    camera angle handling of the main loop.

    Numbers are the program's: every [float] is an IEEE-754 binary32 value,
    modelled by the Standard Library's executable [spec_float] at precision
    24 and maximal exponent 128, with round-to-nearest-even operations; the
    [double] subexpressions are evaluated at precision 53 and maximal
    exponent 1024.  The functions the program takes from libraries ([sin],
    [cos] of the C library, [glm::radians], [rand]) are parameters of the
    development.  The program calls [sin] and [cos] unqualified, which are
    the functions of the C library on [double]: an expression such as
    [currentLength * sin(phi) * cos(theta)] is evaluated in [double] and
    rounded to [float] once, when it is stored.  No statement below depends
    on how a library rounds: where one needs anything of the library, it is a
    hypothesis that says so.

    Beside the ray, the file models what [main] computes for the drawing:
    the grid lines ([addGridLines] and the grid of [main]) and the mesh of a
    sphere ([Sphere::generateVertices]).  The window, the shaders and the
    OpenGL calls are not modelled; neither is the list of spheres of [main],
    since every statement holds for any list. *)

From Stdlib Require Import ZArith NArith List Bool Lia Ascii Permutation.
From Stdlib Require Import Floats.SpecFloat.
Import ListNotations.

(** ** binary32 arithmetic *)

Definition float : Type := spec_float.

Module F32.

Definition prec : Z := 24.
Definition emax : Z := 128.

Definition add : float -> float -> float := SFadd prec emax.
Definition sub : float -> float -> float := SFsub prec emax.
Definition mul : float -> float -> float := SFmul prec emax.
Definition div : float -> float -> float := SFdiv prec emax.
Definition fabs : float -> float := SFabs.

(** The comparisons of C++ on floats; each is false on a NaN operand. *)
Definition le (a b : float) : bool := SFleb a b.
Definition lt (a b : float) : bool := SFltb a b.
Definition gt (a b : float) : bool := SFltb b a.
Definition eqb (a b : float) : bool := SFeqb a b.

(** Conversion of an [int] to [float]. *)
Definition of_int (k : Z) : float := binary_normalize prec emax k 0 false.

(** A decimal literal [n / 10^k] with the [f] suffix: the binary32 value
    nearest to it.  Both [n] and [10^k] are exact in binary32 for the
    literals of this program, so one correctly rounded division gives it. *)
Definition lit (n : Z) (k : nat) : float :=
  div (of_int n) (of_int (10 ^ Z.of_nat k)).

Definition zero : float := S754_zero false.

(** [std::max(a, b)] is [(a < b) ? b : a]; [std::min(a, b)] is
    [(b < a) ? b : a]. *)
Definition max (a b : float) : float := if lt a b then b else a.
Definition min (a b : float) : float := if lt b a then b else a.

Definition is_zero (a : float) : bool :=
  match a with S754_zero _ => true | _ => false end.

Definition is_nan (a : float) : bool :=
  match a with S754_nan => true | _ => false end.

(** Neither an infinity nor a NaN. *)
Definition is_finite (a : float) : bool :=
  match a with S754_zero _ | S754_finite _ _ _ => true | _ => false end.

(** Equality as numbers: the same value, where [+0] and [-0] are the same
    number. *)
Definition num_eq (a b : float) : Prop :=
  a = b \/ (is_zero a = true /\ is_zero b = true).

(** The exact value of a finite float, as a whole multiple of [2^-149],
    the smallest positive binary32 number. *)
Definition ulps (a : float) : Z :=
  match a with
  | S754_finite s m e => cond_Zopp s (Zpos m * 2 ^ (e + 149))%Z
  | _ => 0%Z
  end.

(** A finite float in the representation the binary32 operations produce
    (normalised mantissa, exponent in range). *)
Definition is_number (a : float) : bool :=
  is_finite a && valid_binary prec emax a.

(** Equality of representations, decided. *)
Definition same (a b : float) : bool :=
  match a, b with
  | S754_zero s1, S754_zero s2 => Bool.eqb s1 s2
  | S754_infinity s1, S754_infinity s2 => Bool.eqb s1 s2
  | S754_nan, S754_nan => true
  | S754_finite s1 m1 e1, S754_finite s2 m2 e2 =>
      Bool.eqb s1 s2 && Pos.eqb m1 m2 && Z.eqb e1 e2
  | _, _ => false
  end.

Definition mem (a : float) (l : list float) : bool := existsb (same a) l.

End F32.

(** ** binary64 arithmetic

    [sin], [cos] and [M_PI] are [double]: the expressions that involve them
    are evaluated in binary64 and rounded to binary32 when the result is
    stored in a [float].  A [float] and a [double] are both kept as the sign,
    mantissa and exponent of [spec_float]; the conversion of a [float] to
    [double] is exact, so it leaves the three as they are, and [sin
    (F64.of_float a)] is [sin a].  The binary64 operations round the exact
    result of the operation to 53 bits, whatever the length of the mantissas
    they are given. *)

Module F64.

Definition prec : Z := 53.
Definition emax : Z := 1024.

Definition add (a b : spec_float) : spec_float := SFadd prec emax a b.
Definition mul (a b : spec_float) : spec_float := SFmul prec emax a b.
Definition div (a b : spec_float) : spec_float := SFdiv prec emax a b.

(** The conversion of a [float] to [double] (exact) and of a [double] to
    [float] (rounded to nearest, ties to even). *)
Definition of_float (a : float) : spec_float := a.

Definition to_float (a : spec_float) : float :=
  match a with
  | S754_finite s m e => binary_round F32.prec F32.emax s m e
  | _ => a
  end.

(** The [double] nearest to the decimal literal [n / 10^k]. *)
Definition lit (n : positive) (k : nat) : spec_float :=
  div (S754_finite false n 0) (S754_finite false (Pos.pow 10 (Pos.of_nat k)) 0).

(** The [double] nearest to [m * 2^e]. *)
Definition of_scaled (m e : Z) : spec_float := binary_normalize prec emax m e false.

End F64.

(** ** Grid parameters (lines 11-12) *)

Definition GRID_SIZE : Z := 5.
Definition CELL_SIZE : float := F32.lit 2 1.

(** ** Data *)

(** [class Sphere]: position and radius.  The [vertices] mesh built by
    [generateVertices] is read by the renderer only and is left out. *)
Record Sphere := mkSphere {
  sphere_x : float;
  sphere_y : float;
  sphere_z : float;
  sphere_radius : float
}.

(** [class Ray]. *)
Record Ray := mkRay {
  zenith : float;
  azimuth : float;
  currentLength : float;
  speed : float;
  gridHalfSize : float;
  x : float;
  y : float;
  z : float
}.

(** [Ray::Ray()] (lines 87-93).  The literals [45.0f], [0.0f] and [2.0f]
    are the integers 45, 0 and 2; [0.005f] is [lit 5 3]. *)
Definition Ray_new : Ray :=
  {| zenith := F32.of_int 45;
     azimuth := F32.of_int 45;
     currentLength := F32.zero;
     speed := F32.lit 5 3;
     gridHalfSize := F32.div (F32.mul (F32.of_int GRID_SIZE) CELL_SIZE) (F32.of_int 2);
     x := F32.zero; y := F32.zero; z := F32.zero |}.

(** [Ray::isOutsideCube] (lines 95-99). *)
Definition isOutsideCube (r : Ray) : bool :=
  F32.gt (F32.fabs (x r)) (gridHalfSize r)
  || F32.gt (F32.fabs (y r)) (gridHalfSize r)
  || F32.gt (F32.fabs (z r)) (gridHalfSize r).

(** [Ray::intersectsSphere] (lines 101-110). *)
Definition intersectsSphere (r : Ray) (sphereX sphereY sphereZ sphereRadius : float) : bool :=
  let dx := F32.sub (x r) sphereX in
  let dy := F32.sub (y r) sphereY in
  let dz := F32.sub (z r) sphereZ in
  let distanceSquared :=
    F32.add (F32.add (F32.mul dx dx) (F32.mul dy dy)) (F32.mul dz dz) in
  F32.le distanceSquared (F32.mul sphereRadius sphereRadius).

(** ** The tick

    [Ray::update] changes the ray, draws from the process-wide [rand] and
    writes to [std::cout].  A [World] carries the ray, the number of [rand]
    calls made so far, and the [trace] of what a run did, oldest first: the
    member functions it called with their results, the values [rand]
    returned, and the lines it printed. *)

Inductive Step : Type :=
| CallUpdatePosition
| CallIntersectsSphere (sphere : Sphere) (result : bool)
| CallIsOutsideCube (result : bool)
| CallRand (value : N)
| PrintHitSphere (sx sy sz : float)
| PrintAtBoundary (px py pz halfsize : float).

Record World := mkWorld {
  ray : Ray;
  rand_calls : nat;
  trace : list Step
}.

(** State monad over [World]. *)
Definition M (A : Type) : Type := World -> A * World.

Definition ret {A : Type} (a : A) : M A := fun w => (a, w).

Definition bind {A B : Type} (m : M A) (k : A -> M B) : M B :=
  fun w => let (a, w') := m w in k a w'.

Notation "v <- m ;; k" := (bind m (fun v => k))
  (at level 61, m at next level, right associativity).
Notation "m ;; k" := (bind m (fun _ => k))
  (at level 61, right associativity).

Definition get_ray : M Ray := fun w => (ray w, w).

Definition modify_ray (f : Ray -> Ray) : M unit :=
  fun w => (tt, {| ray := f (ray w); rand_calls := rand_calls w; trace := trace w |}).

Definition emit (s : Step) : M unit :=
  fun w => (tt, {| ray := ray w; rand_calls := rand_calls w; trace := trace w ++ [s] |}).

Definition exec {A : Type} (m : M A) (w : World) : World := snd (m w).

(** Field assignments. *)
Definition set_currentLength (v : float) (r : Ray) : Ray :=
  {| zenith := zenith r; azimuth := azimuth r; currentLength := v;
     speed := speed r; gridHalfSize := gridHalfSize r;
     x := x r; y := y r; z := z r |}.

Definition set_xyz (vx vy vz : float) (r : Ray) : Ray :=
  {| zenith := zenith r; azimuth := azimuth r; currentLength := currentLength r;
     speed := speed r; gridHalfSize := gridHalfSize r;
     x := vx; y := vy; z := vz |}.

Definition set_zenith (v : float) (r : Ray) : Ray :=
  {| zenith := v; azimuth := azimuth r; currentLength := currentLength r;
     speed := speed r; gridHalfSize := gridHalfSize r;
     x := x r; y := y r; z := z r |}.

Definition set_azimuth (v : float) (r : Ray) : Ray :=
  {| zenith := zenith r; azimuth := v; currentLength := currentLength r;
     speed := speed r; gridHalfSize := gridHalfSize r;
     x := x r; y := y r; z := z r |}.

Section Tick.

(** The library functions of the program: [sin] and [cos] on [double],
    [glm::radians] on [float], and the sequence of values the successive
    calls of [rand] return (each in [0, RAND_MAX], hence never negative). *)
Variables sin cos : spec_float -> spec_float.
Variable radians : float -> float.
Variable rand_seq : nat -> N.

(** [rand()]. *)
Definition rand : M N :=
  fun w =>
    let v := rand_seq (rand_calls w) in
    (v, {| ray := ray w; rand_calls := S (rand_calls w);
           trace := trace w ++ [CallRand v] |}).

(** [Ray::updatePosition] (lines 139-146).  [phi] and [theta] are
    [float]s; [sin] and [cos] take and return [double], so each right-hand
    side is a [double] product, rounded to [float] by the assignment. *)
Definition updatePosition (r : Ray) : Ray :=
  let phi := radians (zenith r) in
  let theta := radians (azimuth r) in
  set_xyz
    (F64.to_float
       (F64.mul (F64.mul (F64.of_float (currentLength r)) (sin (F64.of_float phi)))
                (cos (F64.of_float theta))))
    (F64.to_float
       (F64.mul (F64.of_float (currentLength r)) (cos (F64.of_float phi))))
    (F64.to_float
       (F64.mul (F64.mul (F64.of_float (currentLength r)) (sin (F64.of_float phi)))
                (sin (F64.of_float theta))))
    r.

Definition call_updatePosition : M unit :=
  emit CallUpdatePosition ;; modify_ray updatePosition.

Definition call_intersectsSphere (sphere : Sphere) : M bool :=
  r <- get_ray ;;
  let b := intersectsSphere r (sphere_x sphere) (sphere_y sphere)
                            (sphere_z sphere) (sphere_radius sphere) in
  emit (CallIntersectsSphere sphere b) ;; ret b.

Definition call_isOutsideCube : M bool :=
  r <- get_ray ;;
  let b := isOutsideCube r in
  emit (CallIsOutsideCube b) ;; ret b.

(** The four assignments both reset sites make (lines 121-124 and
    132-135): length and position to zero, then [zenith = rand() % 180]
    and [azimuth = rand() % 360], the [int] results converted to [float]. *)
Definition reset : M unit :=
  modify_ray (set_currentLength F32.zero) ;;
  modify_ray (set_xyz F32.zero F32.zero F32.zero) ;;
  a <- rand ;;
  modify_ray (set_zenith (F32.of_int (Z.of_N (a mod 180)))) ;;
  b <- rand ;;
  modify_ray (set_azimuth (F32.of_int (Z.of_N (b mod 360)))).

(** The range-for over the spheres (lines 118-127); the result tells
    whether the body executed its [return]. *)
Fixpoint sphere_loop (spheres : list Sphere) : M bool :=
  match spheres with
  | [] => ret false
  | sphere :: rest =>
      hit <- call_intersectsSphere sphere ;;
      if hit then
        emit (PrintHitSphere (sphere_x sphere) (sphere_y sphere) (sphere_z sphere)) ;;
        reset ;;
        ret true
      else sphere_loop rest
  end.

(** [Ray::update] (lines 113-137). *)
Definition update (spheres : list Sphere) : M unit :=
  modify_ray (fun r => set_currentLength (F32.add (currentLength r) (speed r)) r) ;;
  call_updatePosition ;;
  returned <- sphere_loop spheres ;;
  if returned then ret tt
  else
    outside <- call_isOutsideCube ;;
    if outside then
      r <- get_ray ;;
      emit (PrintAtBoundary (x r) (y r) (z r) (gridHalfSize r)) ;;
      reset
    else ret tt.

(** The world at process start and the worlds the frame loop reaches:
    one [update] per frame (line 813). *)
Definition World_init : World :=
  {| ray := Ray_new; rand_calls := 0; trace := [] |}.

Inductive reachable : World -> Prop :=
| reachable_init : reachable World_init
| reachable_update (spheres : list Sphere) (w : World) :
    reachable w -> reachable (exec (update spheres) w).

End Tick.

(** ** Camera angles (lines 253-256 and 804-811) *)

Record Camera := mkCamera {
  cameraTheta : float;
  cameraPhi : float
}.

Definition rotationSpeed : float := F32.of_int 2.

Definition Camera_init : Camera :=
  {| cameraTheta := F32.of_int 45; cameraPhi := F32.of_int 45 |}.

(** What [glfwGetKey(window, KEY) == GLFW_PRESS] gives for the four keys in
    one frame. *)
Record Keys := mkKeys {
  KEY_RIGHT : bool;
  KEY_LEFT : bool;
  KEY_UP : bool;
  KEY_DOWN : bool
}.

(** The four statements the key tests guard. *)
Definition press_right (c : Camera) : Camera :=
  {| cameraTheta := F32.add (cameraTheta c) rotationSpeed; cameraPhi := cameraPhi c |}.

Definition press_left (c : Camera) : Camera :=
  {| cameraTheta := F32.sub (cameraTheta c) rotationSpeed; cameraPhi := cameraPhi c |}.

Definition press_up (c : Camera) : Camera :=
  {| cameraTheta := cameraTheta c;
     cameraPhi := F32.max (F32.of_int 1) (F32.sub (cameraPhi c) rotationSpeed) |}.

Definition press_down (c : Camera) : Camera :=
  {| cameraTheta := cameraTheta c;
     cameraPhi := F32.min (F32.of_int 179) (F32.add (cameraPhi c) rotationSpeed) |}.

(** The keyboard handling of one frame, in the order of the source. *)
Definition handle_keys (k : Keys) (c : Camera) : Camera :=
  let c := if KEY_RIGHT k then press_right c else c in
  let c := if KEY_LEFT k then press_left c else c in
  let c := if KEY_UP k then press_up c else c in
  if KEY_DOWN k then press_down c else c.

(** The camera after the frames whose key states are [inputs]. *)
Definition camera_after (inputs : list Keys) : Camera :=
  fold_left (fun c k => handle_keys k c) inputs Camera_init.

(** The values a camera has between the statements of the frame loop: the
    initial one, and the one after any of the four statements. *)
Inductive camera_reachable : Camera -> Prop :=
| camera_start : camera_reachable Camera_init
| camera_right c : camera_reachable c -> camera_reachable (press_right c)
| camera_left c : camera_reachable c -> camera_reachable (press_left c)
| camera_up c : camera_reachable c -> camera_reachable (press_up c)
| camera_down c : camera_reachable c -> camera_reachable (press_down c).

(** Frames in which exactly one arrow key is held. *)
Definition only_right : Keys :=
  {| KEY_RIGHT := true; KEY_LEFT := false; KEY_UP := false; KEY_DOWN := false |}.
Definition only_left : Keys :=
  {| KEY_RIGHT := false; KEY_LEFT := true; KEY_UP := false; KEY_DOWN := false |}.

(** The whole numbers [lo, lo + 1, ..., lo + n - 1]. *)
Definition whole_range (lo : Z) (n : nat) : list Z :=
  map (fun k => (lo + Z.of_nat k)%Z) (seq 0 n).

(** The odd whole degrees 1, 3, ..., 179. *)
Definition odd_degrees : list float :=
  map (fun k => F32.of_int (2 * Z.of_nat k + 1)) (seq 0 90).

(** ** Vocabulary of the statements *)

(** The whole degrees below [n], as the program's [int] values. *)
Definition whole_degrees (n : nat) : list Z := map Z.of_nat (seq 0 n).

(** A zero, or a finite number of magnitude below [2^k]: the digits of its
    mantissa end below bit [k]. *)
Definition magnitude_below (k : Z) (a : spec_float) : bool :=
  match a with
  | S754_zero _ => true
  | S754_finite _ m e => (Z.pos (digits2_pos m) + e <=? k)%Z
  | _ => false
  end.

(** A length the ray can have: zero, or a positive number of at most
    [2^18], given as a multiple of [2^-149]. *)
Definition length_in_range (len : float) : bool :=
  match len with
  | S754_zero _ => true
  | S754_finite false m e =>
      ((-149 <=? e) && (Z.pos m * 2 ^ (e + 149) <=? 2 ^ 167))%Z
  | _ => false
  end.

Section Vocabulary.

Variables sin cos : spec_float -> spec_float.
Variable radians : float -> float.

(** The spherical-to-Cartesian mapping: zenith from the vertical [y] axis,
    azimuth around it from the [+x] axis, angles in degrees; the products
    are those of [double], and the coordinate is the [float] nearest to the
    product. *)
Definition spherical_x (zen azi len : float) : float :=
  F64.to_float (F64.mul (F64.mul len (sin (radians zen))) (cos (radians azi))).
Definition spherical_y (zen len : float) : float :=
  F64.to_float (F64.mul len (cos (radians zen))).
Definition spherical_z (zen azi len : float) : float :=
  F64.to_float (F64.mul (F64.mul len (sin (radians zen))) (sin (radians azi))).

(** The cached position is the mapping of the other three fields. *)
Definition position_consistent (r : Ray) : Prop :=
  F32.num_eq (x r) (spherical_x (zenith r) (azimuth r) (currentLength r))
  /\ F32.num_eq (y r) (spherical_y (zenith r) (currentLength r))
  /\ F32.num_eq (z r) (spherical_z (zenith r) (azimuth r) (currentLength r)).

(** The first two statements of [update]: the move. *)
Definition advance (r : Ray) : Ray :=
  updatePosition sin cos radians
    (set_currentLength (F32.add (currentLength r) (speed r)) r).

(** The ray is within the sphere. *)
Definition hits (r : Ray) (s : Sphere) : bool :=
  intersectsSphere r (sphere_x s) (sphere_y s) (sphere_z s) (sphere_radius s).

(** The squared distance [intersectsSphere] computes. *)
Definition sq_dist (r : Ray) (s : Sphere) : float :=
  let dx := F32.sub (x r) (sphere_x s) in
  let dy := F32.sub (y r) (sphere_y s) in
  let dz := F32.sub (z r) (sphere_z s) in
  F32.add (F32.add (F32.mul dx dx) (F32.mul dy dy)) (F32.mul dz dz).

(** The trace of sphere tests that all failed. *)
Definition missed (pre : list Sphere) : list Step :=
  map (fun s => CallIntersectsSphere s false) pre.

(** The ray after a reset that drew [a] and then [b]. *)
Definition reset_ray (a b : N) (r : Ray) : Ray :=
  set_azimuth (F32.of_int (Z.of_N (b mod 360)))
    (set_zenith (F32.of_int (Z.of_N (a mod 180)))
       (set_xyz F32.zero F32.zero F32.zero
          (set_currentLength F32.zero r))).

(** Sine and cosine are finite at every whole degree the program uses. *)
Definition trig_finite_on_degrees : Prop :=
  forall k : Z, (0 <= k < 360)%Z ->
    F32.is_finite (sin (radians (F32.of_int k))) = true
    /\ F32.is_finite (cos (radians (F32.of_int k))) = true.

(** Sine and cosine are of magnitude below 2 at every whole degree the
    program uses (those of the C library are of magnitude at most 1). *)
Definition trig_bounded_on_degrees : Prop :=
  forall k : Z, (0 <= k < 360)%Z ->
    magnitude_below 1 (sin (radians (F32.of_int k))) = true
    /\ magnitude_below 1 (cos (radians (F32.of_int k))) = true.

Definition trig_bounded_check : bool :=
  forallb (fun k => magnitude_below 1 (sin (radians (F32.of_int k)))
                    && magnitude_below 1 (cos (radians (F32.of_int k))))
          (whole_degrees 360).

End Vocabulary.

(** The claim about the degenerate zeniths, as the specification words it:
    at zenith 0 or 180 the recomputed position is the same for any two
    azimuths and lies on the vertical axis. *)
Definition degenerate_zenith_claim (sin cos : spec_float -> spec_float)
           (radians : float -> float) : Prop :=
  forall r1 r2 : Ray,
    (zenith r1 = F32.of_int 0 \/ zenith r1 = F32.of_int 180) ->
    zenith r2 = zenith r1 ->
    currentLength r2 = currentLength r1 ->
    let p1 := updatePosition sin cos radians r1 in
    let p2 := updatePosition sin cos radians r2 in
    (F32.num_eq (x p1) (x p2) /\ F32.num_eq (y p1) (y p2) /\ F32.num_eq (z p1) (z p2))
    /\ F32.num_eq (x p1) F32.zero /\ F32.num_eq (z p1) F32.zero.

(** A whole number of degrees in [0, n). *)
Definition whole_degree_below (n : Z) (a : float) : Prop :=
  exists k : Z, (0 <= k < n)%Z /\ a = F32.of_int k.

(** What every ray of the running program satisfies. *)
Definition ray_invariant (r : Ray) : Prop :=
  whole_degree_below 180 (zenith r)
  /\ whole_degree_below 360 (azimuth r)
  /\ speed r = speed Ray_new
  /\ gridHalfSize r = gridHalfSize Ray_new.

(** A ray of the program's speed and half size with the given direction and
    length; its cached position is the origin until it is recomputed. *)
Definition ray_at (zen azi len : float) : Ray :=
  {| zenith := zen; azimuth := azi; currentLength := len;
     speed := speed Ray_new; gridHalfSize := gridHalfSize Ray_new;
     x := F32.zero; y := F32.zero; z := F32.zero |}.

(** All coordinate magnitudes are at most the half size. *)
Definition inside_cube (r : Ray) : Prop :=
  F32.le (F32.fabs (x r)) (gridHalfSize r) = true
  /\ F32.le (F32.fabs (y r)) (gridHalfSize r) = true
  /\ F32.le (F32.fabs (z r)) (gridHalfSize r) = true.

(** Each coordinate is a binary32 number: neither infinite nor NaN. *)
Definition number_coordinates (r : Ray) : Prop :=
  F32.is_number (x r) = true /\ F32.is_number (y r) = true /\ F32.is_number (z r) = true.

(** All coordinate magnitudes are at most the half size, in exact
    arithmetic. *)
Definition inside_cube_exact (r : Ray) : Prop :=
  (Z.abs (F32.ulps (x r)) <= F32.ulps (gridHalfSize r))%Z
  /\ (Z.abs (F32.ulps (y r)) <= F32.ulps (gridHalfSize r))%Z
  /\ (Z.abs (F32.ulps (z r)) <= F32.ulps (gridHalfSize r))%Z.

(** The steps of the boundary exit: its test and its printed line. *)
Definition is_boundary_step (s : Step) : bool :=
  match s with
  | CallIsOutsideCube _ | PrintAtBoundary _ _ _ _ => true
  | _ => false
  end.

(** ** A concrete library, for running the model

    [glm::radians] multiplies by the binary32 value nearest to pi/180.
    [libm_sin] and [libm_cos] sum the Taylor series up to degree 65 (resp.
    64) in fixed-point arithmetic with 192 fractional bits and round the sum
    to binary64; they are meant for arguments that are zero or of magnitude
    between 2^-64 and 8, which covers the radians of every whole degree in
    [0, 360); there the sum is within about 2^-120 of the sine or cosine
    before it is rounded.  [ansi_rand] is the sample [rand] of the C standard
    with seed 1, its state kept in 32 bits. *)

Definition glm_radians (degrees : float) : float :=
  F32.mul degrees (S754_finite false 9370165 (-29)).

Definition frac_bits : Z := 192.

(** The fixed-point value of a finite number: [a * 2^192], truncated. *)
Definition fixed_point (s : bool) (m : positive) (e : Z) : Z :=
  cond_Zopp s (Z.shiftl (Zpos m) (e + frac_bits)).

(** [series fuel X2 c term sum]: [sum] is the partial sum and [term] its
    last term; the next term is the last one times [- x^2 / ((c+1) (c+2))],
    where [X2] is [x^2]; all in fixed point. *)
Fixpoint series (fuel : nat) (X2 c term sum : Z) : Z :=
  match fuel with
  | O => sum
  | S fuel' =>
      let term' := (- (Z.shiftr (term * X2) frac_bits) / ((c + 1) * (c + 2)))%Z in
      series fuel' X2 (c + 2)%Z term' (sum + term')%Z
  end.

Definition libm_sin (a : spec_float) : spec_float :=
  match a with
  | S754_zero s => S754_zero s
  | S754_finite s m e =>
      let X := fixed_point s m e in
      F64.of_scaled (series 32 (Z.shiftr (X * X) frac_bits) 1 X X) (- frac_bits)
  | _ => S754_nan
  end.

Definition libm_cos (a : spec_float) : spec_float :=
  match a with
  | S754_zero _ => F64.of_scaled 1 0
  | S754_finite s m e =>
      let X := fixed_point s m e in
      F64.of_scaled
        (series 32 (Z.shiftr (X * X) frac_bits) 0 (2 ^ frac_bits) (2 ^ frac_bits))
        (- frac_bits)
  | _ => S754_nan
  end.

Fixpoint ansi_next (n : nat) : N :=
  match n with
  | O => 1
  | S n' => ((ansi_next n' * 1103515245 + 12345) mod 2 ^ 32)%N
  end.

Definition ansi_rand (n : nat) : N := ((ansi_next (S n) / 65536) mod 32768)%N.

(** ** Concrete runs *)

(** The first sphere of the list in [main] (line 280), a sphere around the
    origin, and a sphere that reaches beyond the cube. *)
Definition sphere_280 : Sphere :=
  mkSphere (F32.lit 1 1) (F32.lit (-1) 1) (F32.lit 4 1) (F32.lit 2 2).
Definition sphere_origin : Sphere :=
  mkSphere F32.zero F32.zero F32.zero (F32.lit 2 2).
Definition sphere_outer : Sphere :=
  mkSphere (F32.lit 45 2) (F32.lit 64 2) (F32.lit 45 2) (F32.lit 2 2).

(** The world after the first frame with no spheres, and a world whose ray
    has travelled 0.9 along the initial direction. *)
Definition first_frame : World :=
  exec (update libm_sin libm_cos glm_radians ansi_rand []) World_init.

(** The world after [n] frames with no spheres. *)
Definition frames (n : nat) : World :=
  Nat.iter n (exec (update libm_sin libm_cos glm_radians ansi_rand [])) World_init.

Definition far_world : World :=
  {| ray := ray_at (F32.of_int 45) (F32.of_int 45) (F32.lit 9 1);
     rand_calls := 0; trace := [] |}.

(** ** The rest of the program: the meshes and the frame loop *)

(** [#define M_PI 3.14159265358979323846] (line 8). *)
Definition M_PI : spec_float := F64.lit 314159265358979323846 20.

(** The values [0, 1, ..., n] of the loops [for (int i = 0; i <= n; i++)]. *)
Definition upto (n : Z) : list Z := whole_range 0 (S (Z.to_nat n)).

(** The angles of ring [i] and of segment [j] (lines 59 and 61): the
    product with [M_PI] and the quotient are taken in [double], the result
    is stored in a [float]. *)
Definition mesh_phi (rings i : Z) : float :=
  F64.to_float
    (F64.div (F64.mul M_PI (F64.of_float (F32.of_int i)))
             (F64.of_float (F32.of_int rings))).

Definition mesh_theta (segments j : Z) : float :=
  F64.to_float
    (F64.div
       (F64.mul (F64.mul (F64.of_float (F32.of_int 2)) M_PI)
                (F64.of_float (F32.of_int j)))
       (F64.of_float (F32.of_int segments))).

Section Meshes.

Variables sin cos : spec_float -> spec_float.

(** The three values the loop body pushes (lines 63-69): each right-hand
    side is a [double] sum of the centre coordinate and a [double] product,
    rounded to [float] by the initialisation. *)
Definition mesh_vertex (s : Sphere) (phi theta : float) : list float :=
  let xPos :=
    F64.to_float
      (F64.add (F64.of_float (sphere_x s))
         (F64.mul (F64.mul (F64.of_float (sphere_radius s)) (sin (F64.of_float phi)))
                  (cos (F64.of_float theta)))) in
  let yPos :=
    F64.to_float
      (F64.add (F64.of_float (sphere_y s))
         (F64.mul (F64.mul (F64.of_float (sphere_radius s)) (sin (F64.of_float phi)))
                  (sin (F64.of_float theta)))) in
  let zPos :=
    F64.to_float
      (F64.add (F64.of_float (sphere_z s))
         (F64.mul (F64.of_float (sphere_radius s)) (cos (F64.of_float phi)))) in
  [xPos] ++ [yPos] ++ [zPos].

(** [Sphere::generateVertices] (lines 54-72): the contents of [vertices]
    after the constructor of the sphere. *)
Definition generateVertices (s : Sphere) : list float :=
  let segments := 16%Z in
  let rings := 16%Z in
  fold_left
    (fun vertices i =>
       let phi := mesh_phi rings i in
       fold_left
         (fun vertices j =>
            let theta := mesh_theta segments j in
            vertices ++ mesh_vertex s phi theta)
         (upto segments) vertices)
    (upto rings) [].

End Meshes.

(** [addGridLines] (lines 157-169): the contents of [vertices] after the
    call. *)
Definition addGridLines (vertices : list float) (x y z : float) (axis : ascii) : list float :=
  fold_left
    (fun vertices i =>
       let offset := F32.mul (F32.of_int i) CELL_SIZE in
       if Ascii.eqb axis "x" then
         (vertices ++ [x] ++ [F32.add y offset] ++ [z])
           ++ [F32.add x (F32.mul (F32.of_int GRID_SIZE) CELL_SIZE)]
           ++ [F32.add y offset] ++ [z]
       else if Ascii.eqb axis "y" then
         (vertices ++ [F32.add x offset] ++ [y] ++ [z])
           ++ [F32.add x offset]
           ++ [F32.add y (F32.mul (F32.of_int GRID_SIZE) CELL_SIZE)] ++ [z]
       else vertices)
    (upto GRID_SIZE) vertices.

(** The grid vertices of [main] (lines 216-235). *)
Definition halfSize : float :=
  F32.div (F32.mul (F32.of_int GRID_SIZE) CELL_SIZE) (F32.of_int 2).

Definition grid_vertices : list float :=
  let vertices := [] in
  let vertices := addGridLines vertices (SFopp halfSize) (SFopp halfSize) (SFopp halfSize) "x" in
  let vertices := addGridLines vertices (SFopp halfSize) (SFopp halfSize) (SFopp halfSize) "y" in
  let vertices := addGridLines vertices (SFopp halfSize) (SFopp halfSize) halfSize "x" in
  let vertices := addGridLines vertices (SFopp halfSize) (SFopp halfSize) halfSize "y" in
  fold_left
    (fun vertices i =>
       fold_left
         (fun vertices j =>
            let x := F32.add (SFopp halfSize) (F32.mul (F32.of_int i) CELL_SIZE) in
            let y := F32.add (SFopp halfSize) (F32.mul (F32.of_int j) CELL_SIZE) in
            (vertices ++ [x] ++ [y] ++ [SFopp halfSize]) ++ [x] ++ [y] ++ [halfSize])
         (upto GRID_SIZE) vertices)
    (upto GRID_SIZE) vertices.

(** The vertices taken three at a time, as [glDrawArrays] reads them; what
    is left over when the length is no multiple of three is dropped. *)
Fixpoint points (vertices : list float) : list (float * float * float) :=
  match vertices with
  | a :: b :: c :: rest => (a, b, c) :: points rest
  | _ => []
  end.

(** The points taken two at a time, as [GL_LINES] draws them. *)
Fixpoint segments_of (pts : list (float * float * float))
  : list ((float * float * float) * (float * float * float)) :=
  match pts with
  | p :: q :: rest => (p, q) :: segments_of rest
  | _ => []
  end.

(** A drawn segment is parallel to a coordinate axis when its end points
    agree in the two other coordinates. *)
Definition along_x (seg : (float * float * float) * (float * float * float)) : Prop :=
  let '((_, y1, z1), (_, y2, z2)) := seg in y1 = y2 /\ z1 = z2.
Definition along_y (seg : (float * float * float) * (float * float * float)) : Prop :=
  let '((x1, _, z1), (x2, _, z2)) := seg in x1 = x2 /\ z1 = z2.

(** The corner of the cube with the given signs. *)
Definition corner (sx sy sz : bool) : float * float * float :=
  (if sx then SFopp halfSize else halfSize,
   if sy then SFopp halfSize else halfSize,
   if sz then SFopp halfSize else halfSize).

(** Sine and cosine are finite at the seventeen segment angles of a mesh. *)
Definition trig_finite_on_mesh (sin cos : spec_float -> spec_float) : Prop :=
  forall j : Z, In j (upto 16) ->
    F32.is_finite (sin (mesh_theta 16 j)) = true
    /\ F32.is_finite (cos (mesh_theta 16 j)) = true.

(** The lines a run printed and the resets it made: each reset prints one
    line. *)
Definition is_print (s : Step) : bool :=
  match s with
  | PrintHitSphere _ _ _ | PrintAtBoundary _ _ _ _ => true
  | _ => false
  end.

Definition printed (t : list Step) : list Step := filter is_print t.

(** What a tick prints when [r1] is the moved ray: the hit of the first
    sphere of the list that contains it, else the boundary line when it is
    outside the cube, else nothing. *)
Definition tick_print (r1 : Ray) (spheres : list Sphere) : list Step :=
  match find (fun s => intersectsSphere r1 (sphere_x s) (sphere_y s) (sphere_z s)
                                        (sphere_radius s)) spheres with
  | Some s => [PrintHitSphere (sphere_x s) (sphere_y s) (sphere_z s)]
  | None =>
      if isOutsideCube r1
      then [PrintAtBoundary (x r1) (y r1) (z r1) (gridHalfSize r1)]
      else []
  end.

(** Frames in which only UP, or only DOWN, is held. *)
Definition only_up : Keys :=
  {| KEY_RIGHT := false; KEY_LEFT := false; KEY_UP := true; KEY_DOWN := false |}.
Definition only_down : Keys :=
  {| KEY_RIGHT := false; KEY_LEFT := false; KEY_UP := false; KEY_DOWN := true |}.

(** The frame in which UP and DOWN are both held. *)
Definition up_and_down : Keys :=
  {| KEY_RIGHT := false; KEY_LEFT := false; KEY_UP := true; KEY_DOWN := true |}.

(** The world after [n] frames of the loop of [main], which passes the same
    spheres in every frame (line 813). *)
Definition ticks (sin cos : spec_float -> spec_float) (radians : float -> float)
           (rand_seq : nat -> N)
           (spheres : list Sphere) (n : nat) (w : World) : World :=
  Nat.iter n (exec (update sin cos radians rand_seq spheres)) w.

(** Two spheres of the list of [main] with the same centre and radius
    (lines 281 and 297). *)
Definition sphere_281 : Sphere :=
  mkSphere (F32.lit 1 1) (F32.lit (-1) 1) (F32.lit (-4) 1) (F32.lit 2 2).
Definition sphere_297 : Sphere :=
  mkSphere (F32.lit 1 1) (F32.lit (-1) 1) (F32.lit (-40) 2) (F32.lit 2 2).

(** The world after a first frame that hits the sphere around the origin,
    and a world whose ray has a length that is not a number. *)
Definition reset_frame : World :=
  exec (update libm_sin libm_cos glm_radians ansi_rand [sphere_origin]) World_init.

Definition nan_world : World :=
  {| ray := ray_at (F32.of_int 45) (F32.of_int 45) S754_nan;
     rand_calls := 0; trace := [] |}.

(** * Facts *)

(** ** binary32 comparisons *)

Lemma compare_cont_swap (m1 m2 : positive) :
  Pos.compare_cont Eq m2 m1 = CompOpp (Pos.compare_cont Eq m1 m2).
Proof. exact (Pos.compare_antisym m1 m2). Qed.

Lemma SFcompare_swap (a b : float) (c : comparison) :
  SFcompare a b = Some c -> SFcompare b a = Some (CompOpp c).
Proof.
  destruct a as [sa|sa| |sa ma ea], b as [sb|sb| |sb mb eb]; simpl;
    try discriminate; intros H; injection H as <-.
  1-8: destruct sa; try destruct sb; reflexivity.
  rewrite (Z.compare_antisym ea eb), (compare_cont_swap ma mb).
  destruct sa, sb; try reflexivity;
    destruct (ea ?= eb)%Z; simpl; try reflexivity;
    destruct (Pos.compare_cont Eq ma mb); reflexivity.
Qed.

Lemma eqb_le (a b : float) : F32.eqb a b = true -> F32.le a b = true.
Proof.
  unfold F32.eqb, F32.le, SFeqb, SFleb.
  destruct (SFcompare a b) as [[]|]; intros; congruence.
Qed.

Lemma le_not_gt (a b : float) : F32.le a b = true -> F32.gt a b = false.
Proof.
  unfold F32.le, F32.gt, SFleb, SFltb.
  destruct (SFcompare a b) as [c|] eqn:E; [|discriminate].
  rewrite (SFcompare_swap _ _ _ E). destruct c; simpl; congruence.
Qed.

Lemma SFcompare_defined (a b : float) :
  F32.is_nan a = false -> F32.is_nan b = false -> exists c, SFcompare a b = Some c.
Proof.
  destruct a, b; simpl; intros; try discriminate; eexists; reflexivity.
Qed.

Lemma not_gt_le (a b : float) :
  F32.is_nan a = false -> F32.is_nan b = false ->
  F32.gt a b = false -> F32.le a b = true.
Proof.
  intros Ha Hb. destruct (SFcompare_defined a b Ha Hb) as [c E].
  unfold F32.gt, F32.le, SFltb, SFleb.
  rewrite (SFcompare_swap _ _ _ E), E. destruct c; simpl; congruence.
Qed.

(** *** The comparisons are those of the exact values *)

Lemma digits2_pos_bounds (m : positive) :
  (2 ^ (Zpos (digits2_pos m) - 1) <= Zpos m < 2 ^ Zpos (digits2_pos m))%Z.
Proof.
  induction m as [m IH|m IH|]; simpl digits2_pos.
  - rewrite Pos2Z.inj_succ.
    replace (Z.succ (Zpos (digits2_pos m)) - 1)%Z with (Zpos (digits2_pos m) - 1 + 1)%Z by lia.
    rewrite Z.pow_succ_r by lia. rewrite Z.pow_add_r by lia.
    change (2 ^ 1)%Z with 2%Z. lia.
  - rewrite Pos2Z.inj_succ.
    replace (Z.succ (Zpos (digits2_pos m)) - 1)%Z with (Zpos (digits2_pos m) - 1 + 1)%Z by lia.
    rewrite Z.pow_succ_r by lia. rewrite Z.pow_add_r by lia.
    change (2 ^ 1)%Z with 2%Z. lia.
  - simpl. lia.
Qed.

Lemma bounded_exponent (m : positive) (e : Z) :
  bounded F32.prec F32.emax m e = true ->
  (-149 <= e)%Z /\ (Zpos (digits2_pos m) <= 24)%Z
  /\ (e = -149 \/ Zpos (digits2_pos m) = 24)%Z.
Proof.
  unfold bounded, canonical_mantissa, fexp, emin, F32.prec, F32.emax.
  intros H. apply andb_prop in H as [H _]. apply Z.eqb_eq in H. lia.
Qed.

Lemma exponent_order (m1 m2 : positive) (e1 e2 : Z) :
  bounded F32.prec F32.emax m1 e1 = true ->
  bounded F32.prec F32.emax m2 e2 = true ->
  (e1 < e2)%Z ->
  (Zpos m1 * 2 ^ (e1 + 149) < Zpos m2 * 2 ^ (e2 + 149))%Z.
Proof.
  intros H1 H2 Hlt.
  apply bounded_exponent in H1 as (He1 & Hd1 & _).
  apply bounded_exponent in H2 as (He2 & _ & [He | Hd2]); [lia|].
  pose proof (digits2_pos_bounds m1) as [_ Hm1].
  pose proof (digits2_pos_bounds m2) as [Hm2 _].
  rewrite Hd2 in Hm2.
  assert (Hm1' : (Zpos m1 < 2 ^ 24)%Z).
  { apply Z.lt_le_trans with (1 := Hm1). apply Z.pow_le_mono_r; lia. }
  assert (Hp : (0 < 2 ^ (e1 + 149))%Z) by (apply Z.pow_pos_nonneg; lia).
  replace (e2 + 149)%Z with ((e2 - e1 - 1) + 1 + (e1 + 149))%Z by lia.
  rewrite (Z.pow_add_r 2 (e2 - e1 - 1 + 1) (e1 + 149)) by lia.
  rewrite (Z.pow_add_r 2 (e2 - e1 - 1) 1) by lia.
  assert (Hq : (1 <= 2 ^ (e2 - e1 - 1))%Z) by (apply (Z.pow_le_mono_r 2 0); lia).
  change (2 ^ (24 - 1))%Z with 8388608%Z in Hm2. change (2 ^ 24)%Z with 16777216%Z in Hm1'.
  change (2 ^ 1)%Z with 2%Z.
  revert Hp Hq. generalize (2 ^ (e1 + 149))%Z (2 ^ (e2 - e1 - 1))%Z. intros P Q Hp Hq.
  assert (H1 : (Zpos m1 * P < 16777216 * P)%Z) by (apply Z.mul_lt_mono_pos_r; lia).
  assert (H2 : (8388608 * 1 <= Zpos m2 * Q)%Z) by (apply Z.mul_le_mono_nonneg; lia).
  assert (H3 : (8388608 * 1 * (2 * P) <= Zpos m2 * Q * (2 * P))%Z)
    by (apply Z.mul_le_mono_nonneg_r; lia).
  replace (Zpos m2 * (Q * 2 * P))%Z with (Zpos m2 * Q * (2 * P))%Z by ring.
  lia.
Qed.

Lemma ulps_pos (m : positive) (e : Z) :
  bounded F32.prec F32.emax m e = true -> (0 < Zpos m * 2 ^ (e + 149))%Z.
Proof.
  intros H. apply bounded_exponent in H as (He & _).
  assert (0 < 2 ^ (e + 149))%Z by (apply Z.pow_pos_nonneg; lia). lia.
Qed.


Lemma compare_cont_Eq (m1 m2 : positive) :
  Pos.compare_cont Eq m1 m2 = (Zpos m1 ?= Zpos m2)%Z.
Proof. reflexivity. Qed.

Lemma compare_scaled (m1 m2 : positive) (e : Z) :
  (-149 <= e)%Z ->
  (Zpos m1 * 2 ^ (e + 149) ?= Zpos m2 * 2 ^ (e + 149))%Z = (Zpos m1 ?= Zpos m2)%Z.
Proof.
  intros He. assert (Hp : (0 < 2 ^ (e + 149))%Z) by (apply Z.pow_pos_nonneg; lia).
  destruct (Z.compare_spec (Zpos m1) (Zpos m2)) as [E | L | G].
  - rewrite E. apply Z.compare_refl.
  - apply Z.compare_lt_iff. apply Z.mul_lt_mono_pos_r; assumption.
  - apply Z.compare_gt_iff. apply Z.mul_lt_mono_pos_r; assumption.
Qed.

(** On finite valid floats of the same sign the comparison of the exact
    values is the one [SFcompare] computes from exponents and mantissas. *)
Lemma compare_magnitudes (m1 m2 : positive) (e1 e2 : Z) :
  bounded F32.prec F32.emax m1 e1 = true ->
  bounded F32.prec F32.emax m2 e2 = true ->
  match (e1 ?= e2)%Z with
  | Lt => Lt
  | Gt => Gt
  | Eq => Pos.compare_cont Eq m1 m2
  end = (Zpos m1 * 2 ^ (e1 + 149) ?= Zpos m2 * 2 ^ (e2 + 149))%Z.
Proof.
  intros H1 H2. destruct (Z.compare_spec e1 e2) as [E | L | G].
  - subst e2. rewrite compare_scaled; [reflexivity|].
    apply bounded_exponent in H1. lia.
  - symmetry. apply Z.compare_lt_iff. apply exponent_order; assumption.
  - symmetry. apply Z.compare_gt_iff. apply exponent_order; assumption.
Qed.

Lemma compare_exact (a b : float) :
  F32.is_number a = true -> F32.is_number b = true ->
  SFcompare a b = Some (F32.ulps a ?= F32.ulps b)%Z.
Proof.
  destruct a as [sa|sa| |sa ma ea], b as [sb|sb| |sb mb eb];
    cbv [F32.is_number SFcompare F32.ulps F32.is_finite valid_binary andb];
    try discriminate; intros Ha Hb.
  - reflexivity.
  - pose proof (ulps_pos mb eb Hb). f_equal. symmetry.
    destruct sb; cbv [cond_Zopp].
    + apply Z.compare_gt_iff. lia.
    + apply Z.compare_lt_iff. lia.
  - pose proof (ulps_pos ma ea Ha). f_equal. symmetry.
    destruct sa; cbv [cond_Zopp].
    + apply Z.compare_lt_iff. lia.
    + apply Z.compare_gt_iff. lia.
  - pose proof (ulps_pos ma ea Ha) as Pa. pose proof (ulps_pos mb eb Hb) as Pb.
    pose proof (compare_magnitudes ma mb ea eb Ha Hb) as Hc.
    f_equal. destruct sa, sb; cbv [cond_Zopp].
    + transitivity (CompOpp (Zpos ma * 2 ^ (ea + 149) ?= Zpos mb * 2 ^ (eb + 149))%Z).
      * rewrite <- Hc. destruct (ea ?= eb)%Z; reflexivity.
      * symmetry.
        destruct (Z.compare_spec (Zpos ma * 2 ^ (ea + 149)) (Zpos mb * 2 ^ (eb + 149)))
          as [E | L | G]; cbv [CompOpp].
        -- rewrite E. apply Z.compare_refl.
        -- apply Z.compare_gt_iff. lia.
        -- apply Z.compare_lt_iff. lia.
    + symmetry. apply Z.compare_lt_iff. lia.
    + symmetry. apply Z.compare_gt_iff. lia.
    + exact Hc.
Qed.

Lemma lt_exact (a b : float) :
  F32.is_number a = true -> F32.is_number b = true ->
  (F32.lt a b = true <-> (F32.ulps a < F32.ulps b)%Z).
Proof.
  intros Ha Hb. unfold F32.lt, SFltb. rewrite (compare_exact a b Ha Hb).
  unfold Z.lt. destruct (F32.ulps a ?= F32.ulps b)%Z; split; congruence.
Qed.

Lemma ulps_fabs (a : float) : F32.ulps (F32.fabs a) = Z.abs (F32.ulps a).
Proof.
  destruct a as [s|s| |s m e]; try reflexivity.
  cbv [F32.fabs SFabs F32.ulps cond_Zopp].
  assert (0 <= Zpos m * 2 ^ (e + 149))%Z by (apply Z.mul_nonneg_nonneg; [lia | apply Z.pow_nonneg; lia]).
  destruct s; lia.
Qed.

Lemma is_number_fabs (a : float) : F32.is_number (F32.fabs a) = F32.is_number a.
Proof. destruct a; reflexivity. Qed.

Lemma gt_exact (a b : float) :
  F32.is_number a = true -> F32.is_number b = true ->
  (F32.gt a b = true <-> (F32.ulps b < F32.ulps a)%Z).
Proof. intros Ha Hb. exact (lt_exact b a Hb Ha). Qed.

Lemma le_exact (a b : float) :
  F32.is_number a = true -> F32.is_number b = true ->
  (F32.le a b = true <-> (F32.ulps a <= F32.ulps b)%Z).
Proof.
  intros Ha Hb. unfold F32.le, SFleb. rewrite (compare_exact a b Ha Hb).
  unfold Z.le. destruct (F32.ulps a ?= F32.ulps b)%Z; split; congruence.
Qed.

Lemma is_number_not_nan (a : float) : F32.is_number a = true -> F32.is_nan a = false.
Proof. destruct a; simpl; intros; try discriminate; reflexivity. Qed.

Lemma fabs_nan (a : float) : F32.is_nan (F32.fabs a) = F32.is_nan a.
Proof. destruct a; reflexivity. Qed.

Lemma same_eq (a b : float) : F32.same a b = true -> a = b.
Proof.
  destruct a as [sa|sa| |sa ma ea], b as [sb|sb| |sb mb eb]; simpl;
    try discriminate; try reflexivity.
  - intros H. apply Bool.eqb_prop in H. congruence.
  - intros H. apply Bool.eqb_prop in H. congruence.
  - intros H. apply andb_prop in H as [H He]. apply andb_prop in H as [Hs Hm].
    apply Bool.eqb_prop in Hs. apply Pos.eqb_eq in Hm. apply Z.eqb_eq in He.
    congruence.
Qed.

Lemma same_refl (a : float) : F32.same a a = true.
Proof.
  destruct a as [sa|sa| |sa ma ea]; simpl; try reflexivity;
    try apply Bool.eqb_reflx.
  rewrite Bool.eqb_reflx, Pos.eqb_refl, Z.eqb_refl. reflexivity.
Qed.

Lemma mem_In (a : float) (l : list float) : F32.mem a l = true <-> In a l.
Proof.
  unfold F32.mem. rewrite existsb_exists. split.
  - intros [b [Hin Hs]]. apply same_eq in Hs. congruence.
  - intros Hin. exists a. split; [assumption | apply same_refl].
Qed.

Lemma num_eq_refl (a : float) : F32.num_eq a a.
Proof. left; reflexivity. Qed.

Lemma num_eq_zeros (a b : float) :
  F32.is_zero a = true -> F32.is_zero b = true -> F32.num_eq a b.
Proof. intros; right; split; assumption. Qed.

Lemma num_eq_sym (a b : float) : F32.num_eq a b -> F32.num_eq b a.
Proof. intros [-> | [Ha Hb]]; [left; reflexivity | right; split; assumption]. Qed.

Lemma num_eq_trans (a b c : float) :
  F32.num_eq a b -> F32.num_eq b c -> F32.num_eq a c.
Proof.
  intros [-> | [Ha Hb]] [-> | [Hb' Hc]].
  - left; reflexivity.
  - right; split; assumption.
  - right; split; assumption.
  - right; split; assumption.
Qed.

(** Zero times a finite number is a zero, on either side, and the [float]
    of a zero is that zero. *)
Lemma mul_zero_l (a b : spec_float) :
  F32.is_zero a = true -> F32.is_finite b = true -> F32.is_zero (F64.mul a b) = true.
Proof. destruct a, b; simpl; intros; try discriminate; reflexivity. Qed.

Lemma mul_zero_r (a b : spec_float) :
  F32.is_finite a = true -> F32.is_zero b = true -> F32.is_zero (F64.mul a b) = true.
Proof. destruct a, b; simpl; intros; try discriminate; reflexivity. Qed.

Lemma to_float_zero (a : spec_float) :
  F32.is_zero a = true -> F32.is_zero (F64.to_float a) = true.
Proof. destruct a; simpl; intros; try discriminate; reflexivity. Qed.

(** ** Rounding

    The rounding of [SpecFloat], spelled out for an exact positive mantissa
    [M] at exponent [e]: the mantissa is shifted right to the exponent [e1]
    of the format, rounded to [m2] (the shifted mantissa or the next whole
    number; the shifted mantissa when the first bit shifted out is 0), and
    shifted once more if the rounding added a digit. *)

Section Rounding.

Local Open Scope Z_scope.

(** *** Shifting a mantissa to the right *)

Lemma iter_pos_nat {A : Type} (f : A -> A) (p : positive) (x : A) :
  iter_pos f p x = Nat.iter (Pos.to_nat p) f x.
Proof.
  revert x. induction p as [p IH|p IH|]; intros x; simpl iter_pos.
  - rewrite !IH. rewrite Pos2Nat.inj_xI.
    replace (S (2 * Pos.to_nat p))%nat with (Pos.to_nat p + (Pos.to_nat p + 1))%nat by lia.
    rewrite !Nat.iter_add. reflexivity.
  - rewrite !IH. rewrite Pos2Nat.inj_xO.
    replace (2 * Pos.to_nat p)%nat with (Pos.to_nat p + Pos.to_nat p)%nat by lia.
    rewrite Nat.iter_add. reflexivity.
  - reflexivity.
Qed.

Lemma shr_1_m (mrs : shr_record) :
  0 <= shr_m mrs -> shr_m (shr_1 mrs) = shr_m mrs / 2.
Proof.
  destruct mrs as [m r s]. simpl shr_m at 1 3. intros Hm.
  rewrite <- Z.div2_div.
  destruct m as [|[p|p|]|p]; try reflexivity. lia.
Qed.

Lemma shr_1_r (mrs : shr_record) : shr_r (shr_1 mrs) = Z.odd (shr_m mrs).
Proof. destruct mrs as [m r s]. destruct m as [|[p|p|]|[p|p|]]; reflexivity. Qed.

Lemma iter_shr_m (k : nat) (mrs : shr_record) :
  0 <= shr_m mrs ->
  shr_m (Nat.iter k shr_1 mrs) = shr_m mrs / 2 ^ Z.of_nat k.
Proof.
  intros Hm. induction k as [|k IH].
  - simpl. symmetry. apply Z.div_1_r.
  - change (Nat.iter (S k) shr_1 mrs) with (shr_1 (Nat.iter k shr_1 mrs)).
    rewrite shr_1_m.
    + rewrite IH. rewrite Z.div_div by (try apply Z.pow_pos_nonneg; lia).
      rewrite Nat2Z.inj_succ, Z.pow_succ_r by lia. f_equal. lia.
    + rewrite IH. apply Z.div_pos; [exact Hm | apply Z.pow_pos_nonneg; lia].
Qed.

Lemma iter_shr_r (k : nat) (mrs : shr_record) :
  0 <= shr_m mrs ->
  shr_r (Nat.iter (S k) shr_1 mrs) = Z.odd (shr_m mrs / 2 ^ Z.of_nat k).
Proof.
  intros Hm. change (Nat.iter (S k) shr_1 mrs) with (shr_1 (Nat.iter k shr_1 mrs)).
  rewrite shr_1_r, iter_shr_m by exact Hm. reflexivity.
Qed.

(** What [shr] does to an exact non-negative mantissa. *)
Lemma shr_exact (m e n : Z) :
  0 <= m ->
  let '(mrs, e') := shr (shr_record_of_loc m loc_Exact) e n in
  e' = e + Z.max 0 n
  /\ shr_m mrs = m / 2 ^ Z.max 0 n
  /\ (n <= 0 -> loc_of_shr_record mrs = loc_Exact)
  /\ (0 < n -> shr_r mrs = Z.odd (m / 2 ^ (n - 1))).
Proof.
  intros Hm. destruct n as [|p|p]; simpl shr.
  - repeat split; try lia. simpl. symmetry. apply Z.div_1_r.
  - rewrite iter_pos_nat.
    assert (Hp : Z.max 0 (Z.pos p) = Z.of_nat (Pos.to_nat p)) by lia.
    rewrite Hp. split; [lia|]. split; [|split].
    + apply (iter_shr_m _ {| shr_m := m; shr_r := false; shr_s := false |}). exact Hm.
    + lia.
    + intros _. destruct (Pos.to_nat p) as [|k] eqn:Ek; [lia|].
      rewrite (iter_shr_r k {| shr_m := m; shr_r := false; shr_s := false |}) by exact Hm.
      simpl shr_m. do 2 f_equal. f_equal. lia.
  - repeat split; try lia. simpl. symmetry. apply Z.div_1_r.
Qed.

Lemma round_nearest_even_cases (m : Z) (l : location) :
  round_nearest_even m l = m \/ round_nearest_even m l = m + 1.
Proof.
  destruct l as [|[]]; simpl; auto. destruct (Z.even m); auto.
Qed.

Lemma round_down (mrs : shr_record) :
  shr_r mrs = false ->
  round_nearest_even (shr_m mrs) (loc_of_shr_record mrs) = shr_m mrs.
Proof. destruct mrs as [m [] []]; simpl; intros; try discriminate; reflexivity. Qed.

(** The two stages of [binary_round_aux] on an exact positive mantissa. *)
Lemma binary_round_aux_spec (prec emax : Z) (s : bool) (M : positive) (e : Z) :
  let e1 := Z.max e (fexp prec emax (Z.pos (digits2_pos M) + e)) in
  let m1 := Z.pos M / 2 ^ (e1 - e) in
  exists m2 : Z,
    (m2 = m1 \/ m2 = m1 + 1)
    /\ (e1 = e \/ Z.odd (Z.pos M / 2 ^ (e1 - e - 1)) = false -> m2 = m1)
    /\ let e3 := Z.max e1 (fexp prec emax (Zdigits2 m2 + e1)) in
       binary_round_aux prec emax s (Z.pos M) e loc_Exact =
       match m2 / 2 ^ (e3 - e1) with
       | Z0 => S754_zero s
       | Z.pos m => if e3 <=? emax - prec then S754_finite s m e3 else S754_infinity s
       | Z.neg _ => S754_nan
       end.
Proof.
  intros e1 m1. unfold binary_round_aux, shr_fexp.
  change (Zdigits2 (Z.pos M)) with (Z.pos (digits2_pos M)).
  set (n1 := fexp prec emax (Z.pos (digits2_pos M) + e) - e).
  pose proof (shr_exact (Z.pos M) e n1 ltac:(lia)) as H1.
  destruct (shr (shr_record_of_loc (Z.pos M) loc_Exact) e n1) as [mrs' e'].
  destruct H1 as (He' & Hm' & Hex & Hr).
  assert (Ee : e' = e1) by (unfold e1, n1 in *; lia).
  assert (En : Z.max 0 n1 = e1 - e) by (unfold e1, n1 in *; lia).
  rewrite En in Hm'. fold m1 in Hm'.
  set (m2 := round_nearest_even (shr_m mrs') (loc_of_shr_record mrs')).
  assert (Hm1 : 0 <= m1) by (apply Z.div_pos; [lia | apply Z.pow_pos_nonneg; lia]).
  assert (H2 : m2 = m1 \/ m2 = m1 + 1).
  { unfold m2. rewrite <- Hm'. apply round_nearest_even_cases. }
  exists m2. split; [exact H2|]. split.
  - intros [E | Hodd].
    + unfold m2. rewrite Hex by (unfold e1, n1 in *; lia). simpl. exact Hm'.
    + destruct (Z_le_gt_dec n1 0) as [Hn | Hn].
      * unfold m2. rewrite Hex by exact Hn. simpl. exact Hm'.
      * unfold m2. rewrite round_down; [exact Hm'|].
        rewrite Hr by lia. replace (n1 - 1) with (e1 - e - 1) by lia. exact Hodd.
  - set (e3 := Z.max e1 (fexp prec emax (Zdigits2 m2 + e1))). rewrite Ee.
    set (n2 := fexp prec emax (Zdigits2 m2 + e1) - e1).
    pose proof (shr_exact m2 e1 n2 ltac:(lia)) as H3.
    destruct (shr (shr_record_of_loc m2 loc_Exact) e1 n2) as [mrs'' e''].
    destruct H3 as (He'' & Hm'' & _ & _).
    assert (E3 : e'' = e3) by (unfold e3, n2 in *; lia).
    assert (En2 : Z.max 0 n2 = e3 - e1) by (unfold e3, n2 in *; lia).
    rewrite Hm'', En2, E3. reflexivity.
Qed.

(** *** The number of digits of a mantissa *)

Lemma Zdigits2_nonneg (m : Z) : 0 <= Zdigits2 m.
Proof. destruct m; simpl; lia. Qed.

Lemma Zdigits2_lt_pow (m : Z) : 0 <= m -> m < 2 ^ Zdigits2 m.
Proof.
  destruct m as [|p|p]; simpl; intros H; [lia| |lia].
  apply digits2_pos_bounds.
Qed.

Lemma Zdigits2_le (m k : Z) : 0 <= m -> 0 <= k -> m < 2 ^ k -> Zdigits2 m <= k.
Proof.
  intros Hm Hk Hlt. destruct m as [|p|p]; simpl; [lia| |lia].
  pose proof (digits2_pos_bounds p) as [Hlo _].
  destruct (Z_le_gt_dec (Z.pos (digits2_pos p)) k) as [H|H]; [exact H|].
  exfalso.
  assert (2 ^ k <= 2 ^ (Z.pos (digits2_pos p) - 1)) by (apply Z.pow_le_mono_r; lia).
  lia.
Qed.

Lemma Zdigits2_ge (m k : Z) : 0 <= k -> 2 ^ k <= m -> k + 1 <= Zdigits2 m.
Proof.
  intros Hk Hle.
  assert (Hp : 0 < 2 ^ k) by (apply Z.pow_pos_nonneg; lia).
  pose proof (Zdigits2_lt_pow m ltac:(lia)) as Hlt.
  pose proof (Zdigits2_nonneg m).
  destruct (Z_le_gt_dec (k + 1) (Zdigits2 m)) as [H1|H1]; [exact H1|].
  exfalso.
  assert (2 ^ Zdigits2 m <= 2 ^ k) by (apply Z.pow_le_mono_r; lia).
  lia.
Qed.

Lemma Zdigits2_div_pow (m n : Z) :
  0 <= m -> 0 <= n -> Zdigits2 (m / 2 ^ n) <= Z.max 0 (Zdigits2 m - n).
Proof.
  intros Hm Hn. pose proof (Zdigits2_lt_pow m Hm) as Hlt.
  pose proof (Zdigits2_nonneg m) as Hd.
  assert (Hp : 0 < 2 ^ n) by (apply Z.pow_pos_nonneg; lia).
  destruct (Z_le_gt_dec n (Zdigits2 m)) as [H|H].
  - apply Zdigits2_le; [apply Z.div_pos; lia | lia |].
    apply Z.div_lt_upper_bound; [lia|].
    rewrite <- Z.pow_add_r by lia.
    replace (n + Z.max 0 (Zdigits2 m - n)) with (Zdigits2 m) by lia. exact Hlt.
  - rewrite Z.div_small; [simpl; lia|]. split; [lia|].
    apply Z.lt_le_trans with (1 := Hlt). apply Z.pow_le_mono_r; lia.
Qed.

Lemma Zdigits2_succ (m : Z) : 0 <= m -> Zdigits2 (m + 1) <= Zdigits2 m + 1.
Proof.
  intros Hm. pose proof (Zdigits2_lt_pow m Hm) as Hlt.
  pose proof (Zdigits2_nonneg m) as Hd.
  apply Zdigits2_le; [lia | lia |].
  rewrite Z.pow_add_r by lia. change (2 ^ 1) with 2. lia.
Qed.

Lemma digits2_mul (a b : positive) :
  Z.pos (digits2_pos (a * b)) <= Z.pos (digits2_pos a) + Z.pos (digits2_pos b).
Proof.
  pose proof (digits2_pos_bounds a) as [_ Ha]. pose proof (digits2_pos_bounds b) as [_ Hb].
  apply (Zdigits2_le (Z.pos (a * b))); [lia | lia |].
  rewrite Z.pow_add_r by lia. rewrite Pos2Z.inj_mul.
  apply Z.mul_lt_mono_nonneg; lia.
Qed.

(** *** Rounding does not overflow on small numbers *)

Lemma binary_round_aux_magnitude (prec emax : Z) (s : bool) (M : positive) (e k : Z) :
  0 < prec ->
  Z.pos (digits2_pos M) + e <= k ->
  k < emax -> e <= emax - prec -> emin prec emax <= emax - prec ->
  magnitude_below (Z.max k (emin prec emax) + 1)
    (binary_round_aux prec emax s (Z.pos M) e loc_Exact) = true.
Proof.
  intros Hprec Hk Hemax He Hemin.
  destruct (binary_round_aux_spec prec emax s M e) as (m2 & H2 & _ & ->).
  set (d := Z.pos (digits2_pos M)) in *.
  set (e1 := Z.max e (fexp prec emax (d + e))) in *.
  set (m1 := Z.pos M / 2 ^ (e1 - e)) in *.
  set (e3 := Z.max e1 (fexp prec emax (Zdigits2 m2 + e1))).
  assert (Hm1 : 0 <= m1)
    by (apply Z.div_pos; [lia | apply Z.pow_pos_nonneg; unfold e1; lia]).
  assert (Hd1 : Zdigits2 m1 <= Z.max 0 (d - (e1 - e))).
  { apply (Zdigits2_div_pow (Z.pos M)); unfold e1; lia. }
  assert (Hd2 : Zdigits2 m2 <= Z.max 0 (d - (e1 - e)) + 1).
  { destruct H2 as [-> | ->]; [lia|]. pose proof (Zdigits2_succ m1 Hm1). lia. }
  assert (Hm2 : 0 <= m2) by lia.
  assert (Hd3 : Zdigits2 (m2 / 2 ^ (e3 - e1)) <= Z.max 0 (Zdigits2 m2 - (e3 - e1))).
  { apply Zdigits2_div_pow; unfold e3; lia. }
  assert (Hdpos : 0 < d) by (unfold d; lia).
  unfold fexp in e1, e3.
  destruct (m2 / 2 ^ (e3 - e1)) as [|p|p] eqn:E3; [reflexivity| |].
  - simpl Zdigits2 in Hd3.
    clear E3 Hd1 H2 Hm1 m1.
    assert (He1 : e1 <= emax - prec) by (unfold e1; lia).
    assert (He1' : e <= e1) by (unfold e1; lia).
    assert (He1'' : d + e - prec <= e1) by (unfold e1; lia).
    assert (Hfin : (e3 <=? emax - prec) = true) by (apply Z.leb_le; unfold e3; lia).
    rewrite Hfin. cbn [magnitude_below]. apply Z.leb_le.
    assert (He3 : e3 <= Z.max k (emin prec emax) + 1) by (unfold e3; lia).
    assert (He3' : e1 <= e3) by (unfold e3; lia).
    lia.
  - exfalso. assert (0 <= m2 / 2 ^ (e3 - e1))
      by (apply Z.div_pos; [lia | apply Z.pow_pos_nonneg; unfold e3; lia]). lia.
Qed.

Lemma mul_magnitude (prec emax ka kb : Z) (a b : spec_float) :
  0 < prec -> emin prec emax <= emax - prec ->
  ka + kb < emax -> ka + kb - 2 <= emax - prec ->
  magnitude_below ka a = true -> magnitude_below kb b = true ->
  magnitude_below (Z.max (ka + kb) (emin prec emax) + 1) (SFmul prec emax a b) = true.
Proof.
  intros Hprec Hemin Hk1 Hk2 Ha Hb.
  destruct a as [sa|sa| |sa ma ea], b as [sb|sb| |sb mb eb]; try discriminate; try reflexivity.
  cbn [magnitude_below] in Ha, Hb. apply Z.leb_le in Ha, Hb.
  unfold SFmul. pose proof (digits2_mul ma mb).
  apply binary_round_aux_magnitude; try assumption; lia.
Qed.

Lemma shift_pos_value (m d : positive) : Z.pos (Pos.iter xO m d) = Z.pos m * 2 ^ Z.pos d.
Proof.
  induction d as [|d IH] using Pos.peano_ind.
  - simpl. lia.
  - rewrite Pos.iter_succ, Pos2Z.inj_succ, Z.pow_succ_r by lia.
    rewrite Pos2Z.inj_xO, IH. ring.
Qed.

Lemma shl_align_spec (m : positive) (e e' : Z) :
  snd (shl_align m e e') = Z.min e e'
  /\ Z.pos (fst (shl_align m e e')) = Z.pos m * 2 ^ (e - Z.min e e').
Proof.
  unfold shl_align. destruct (e' - e) as [|p|p] eqn:E; cbn [fst snd].
  - split; [lia|]. replace (e - Z.min e e') with 0 by lia. lia.
  - split; [lia|]. replace (e - Z.min e e') with 0 by lia. lia.
  - split; [lia|]. rewrite shift_pos_value. do 2 f_equal. lia.
Qed.

(** *** The length of the ray stays in range *)

Lemma div_pow_exact (V q r c : Z) :
  0 < c -> V = c * q + r -> 0 <= r < c -> V / c = q.
Proof. intros Hc HV Hr. symmetry. apply (Z.div_unique V c q r); [left; exact Hr | exact HV]. Qed.

Lemma round_below_bound (V : positive) (e0 : Z) :
  -149 <= e0 <= -31 ->
  Z.pos V <= 2 ^ (18 - e0) + 10737418 * 2 ^ (-31 - e0) ->
  length_in_range (binary_round_aux 24 128 false (Z.pos V) e0 loc_Exact) = true.
Proof.
  intros He HV.
  destruct (binary_round_aux_spec 24 128 false V e0) as (m2 & H2 & Hdown & ->).
  set (d := Z.pos (digits2_pos V)) in *.
  unfold fexp, emin in *.
  set (e1 := Z.max e0 (Z.max (d + e0 - 24) (3 - 128 - 24))) in *.
  set (P := 2 ^ (-31 - e0)) in *.
  assert (HP : 0 < P) by (apply Z.pow_pos_nonneg; lia).
  assert (E18 : 2 ^ (18 - e0) = 562949953421312 * P).
  { unfold P. replace (18 - e0) with (49 + (-31 - e0)) by lia.
    rewrite Z.pow_add_r by lia. reflexivity. }
  assert (E19 : 2 ^ (19 - e0) = 1125899906842624 * P).
  { unfold P. replace (19 - e0) with (50 + (-31 - e0)) by lia.
    rewrite Z.pow_add_r by lia. reflexivity. }
  destruct (Z_lt_le_dec (Z.pos V) (2 ^ (18 - e0))) as [Hlt | Hge].
  - (* the sum is below 2^18 *)
    assert (Hd : d <= 18 - e0) by (apply (Zdigits2_le (Z.pos V)); lia).
    assert (He1 : e0 <= e1 <= -6 /\ -149 <= e1) by (unfold e1; lia).
    set (m1 := Z.pos V / 2 ^ (e1 - e0)) in *.
    assert (Hm1 : 0 <= m1 < 2 ^ (18 - e1)).
    { split; [apply Z.div_pos; [lia | apply Z.pow_pos_nonneg; lia]|].
      apply Z.div_lt_upper_bound; [apply Z.pow_pos_nonneg; lia|].
      rewrite <- Z.pow_add_r by lia.
      replace (e1 - e0 + (18 - e1)) with (18 - e0) by lia. exact Hlt. }
    assert (Hm2 : 0 <= m2 <= 2 ^ (18 - e1)) by lia.
    assert (Hd2 : Zdigits2 m2 <= 19 - e1).
    { apply Zdigits2_le; [lia | lia |].
      replace (19 - e1) with (18 - e1 + 1) by lia.
      rewrite Z.pow_add_r by lia. change (2 ^ 1) with 2.
      assert (0 < 2 ^ (18 - e1)) by (apply Z.pow_pos_nonneg; lia). lia. }
    set (e3 := Z.max e1 (Z.max (Zdigits2 m2 + e1 - 24) (3 - 128 - 24))).
    assert (He3 : e1 <= e3 <= -5) by (unfold e3; lia).
    assert (Hq : 0 < 2 ^ (e3 - e1)) by (apply Z.pow_pos_nonneg; lia).
    pose proof (Z.mul_div_le m2 (2 ^ (e3 - e1)) Hq) as Hdiv.
    destruct (m2 / 2 ^ (e3 - e1)) as [|p|p] eqn:E3; [reflexivity| |].
    + assert (Hfin : (e3 <=? 128 - 24) = true) by (apply Z.leb_le; lia).
      rewrite Hfin. cbn [length_in_range].
      apply andb_true_intro. split; [apply Z.leb_le; lia|]. apply Z.leb_le.
      replace (e3 + 149) with ((e3 - e1) + (e1 + 149)) by lia.
      rewrite Z.pow_add_r by lia.
      replace 167 with ((18 - e1) + (e1 + 149)) by lia.
      rewrite (Z.pow_add_r 2 (18 - e1)) by lia.
      assert (Hr : 0 < 2 ^ (e1 + 149)) by (apply Z.pow_pos_nonneg; lia).
      rewrite Z.mul_assoc. apply Z.mul_le_mono_nonneg_r; [lia|].
      rewrite Z.mul_comm. lia.
    + exfalso. assert (0 <= m2 / 2 ^ (e3 - e1)) by (apply Z.div_pos; lia). lia.
  - (* the sum is 2^18 and a part of the speed *)
    assert (Hd : d = 19 - e0).
    { assert (d <= 19 - e0) by (apply (Zdigits2_le (Z.pos V)); lia).
      assert (18 - e0 + 1 <= d) by (apply (Zdigits2_ge (Z.pos V)); lia).
      lia. }
    assert (He1 : e1 = -5) by (unfold e1; lia).
    rewrite He1 in *.
    assert (Hm1 : Z.pos V / 2 ^ (-5 - e0) = 8388608).
    { apply (div_pow_exact _ _ (Z.pos V - 2 ^ (18 - e0))).
      - apply Z.pow_pos_nonneg; lia.
      - replace (-5 - e0) with (26 + (-31 - e0)) by lia.
        rewrite Z.pow_add_r by lia. fold P. rewrite E18. change (2 ^ 26) with 67108864. lia.
      - replace (-5 - e0) with (26 + (-31 - e0)) by lia.
        rewrite Z.pow_add_r by lia. fold P. rewrite E18. change (2 ^ 26) with 67108864. lia. }
    assert (Hodd : Z.pos V / 2 ^ (-5 - e0 - 1) = 16777216).
    { apply (div_pow_exact _ _ (Z.pos V - 2 ^ (18 - e0))).
      - apply Z.pow_pos_nonneg; lia.
      - replace (-5 - e0 - 1) with (25 + (-31 - e0)) by lia.
        rewrite Z.pow_add_r by lia. fold P. rewrite E18. change (2 ^ 25) with 33554432. lia.
      - replace (-5 - e0 - 1) with (25 + (-31 - e0)) by lia.
        rewrite Z.pow_add_r by lia. fold P. rewrite E18. change (2 ^ 25) with 33554432. lia. }
    assert (Em2 : m2 = 8388608).
    { rewrite <- Hm1. apply Hdown. right. rewrite Hodd. reflexivity. }
    rewrite Em2. vm_compute. reflexivity.
Qed.

(** Adding the speed of the program to a length in range gives a length in
    range: below [2^18] the rounded sum cannot pass [2^18], and at [2^18]
    the speed is below half the distance to the next [float], so the sum
    rounds back to [2^18]. *)
Lemma add_speed_in_range (len : float) :
  length_in_range len = true ->
  length_in_range (F32.add len (speed Ray_new)) = true.
Proof.
  replace (speed Ray_new) with (S754_finite false 10737418 (-31))
    by (vm_compute; reflexivity).
  unfold F32.add, F32.prec, F32.emax.
  destruct len as [s|s| |s m e]; try discriminate.
  - intros _. reflexivity.
  - destruct s; [discriminate|]. cbn [length_in_range]. intros H.
    apply andb_prop in H as [He Hv]. apply Z.leb_le in He, Hv.
    unfold SFadd.
    set (ez := Z.min e (-31)).
    destruct (shl_align_spec m e ez) as [_ Ha].
    destruct (shl_align_spec 10737418 (-31) ez) as [_ Hb].
    replace (Z.min e ez) with ez in Ha by (unfold ez; lia).
    replace (Z.min (-31) ez) with ez in Hb by (unfold ez; lia).
    cbn [cond_Zopp]. rewrite <- Pos2Z.inj_add. cbn [binary_normalize].
    set (M := (fst (shl_align m e ez) + fst (shl_align 10737418 (-31) ez))%positive).
    assert (HM : Z.pos M = Z.pos m * 2 ^ (e - ez) + 10737418 * 2 ^ (-31 - ez)).
    { unfold M. rewrite Pos2Z.inj_add, Ha, Hb. reflexivity. }
    clearbody M. clear Ha Hb.
    unfold binary_round.
    destruct (shl_align_spec M ez (fexp 24 128 (Z.pos (digits2_pos M) + ez))) as [He0 Hz].
    destruct (shl_align M ez (fexp 24 128 (Z.pos (digits2_pos M) + ez))) as [mz e0].
    cbn [fst snd] in He0, Hz. rewrite <- He0 in Hz.
    assert (Hr : -149 <= e0 <= -31).
    { unfold fexp, emin in He0. unfold ez in *. lia. }
    apply round_below_bound; [exact Hr|].
    rewrite Hz, HM.
    assert (Hez : e0 <= ez <= e) by (unfold fexp, emin in He0; unfold ez in *; lia).
    rewrite Z.mul_add_distr_r, <- !Z.mul_assoc, <- !Z.pow_add_r by lia.
    replace (-31 - ez + (ez - e0)) with (-31 - e0) by lia.
    replace (e - ez + (ez - e0)) with (e - e0) by lia.
    apply Z.add_le_mono_r.
    assert (Hp : 0 < 2 ^ (e0 + 149)) by (apply Z.pow_pos_nonneg; lia).
    apply (Z.mul_le_mono_pos_r _ _ (2 ^ (e0 + 149)) Hp).
    rewrite <- Z.mul_assoc, <- !Z.pow_add_r by lia.
    replace (e - e0 + (e0 + 149)) with (e + 149) by lia.
    replace (18 - e0 + (e0 + 149)) with 167 by lia.
    exact Hv.
Qed.

Lemma length_in_range_magnitude (len : float) :
  length_in_range len = true -> magnitude_below 19 len = true.
Proof.
  destruct len as [s|s| |s m e]; try discriminate; [reflexivity|].
  destruct s; [discriminate|]. cbn [length_in_range magnitude_below]. intros H.
  apply andb_prop in H as [He Hv]. apply Z.leb_le in He, Hv. apply Z.leb_le.
  pose proof (digits2_pos_bounds m) as [Hlo _].
  set (d := Z.pos (digits2_pos m)) in *.
  assert (Hd : 0 < d) by (unfold d; lia).
  destruct (Z_le_gt_dec (d + e) 19) as [H|H]; [exact H|]. exfalso.
  assert (Hp : 0 < 2 ^ (e + 149)) by (apply Z.pow_pos_nonneg; lia).
  assert (H1 : 2 ^ (d - 1) * 2 ^ (e + 149) <= Z.pos m * 2 ^ (e + 149))
    by (apply Z.mul_le_mono_nonneg_r; lia).
  rewrite <- Z.pow_add_r in H1 by lia.
  assert (H2 : 2 ^ 168 <= 2 ^ (d - 1 + (e + 149))) by (apply Z.pow_le_mono_r; lia).
  assert (H3 : 2 ^ 167 < 2 ^ 168) by (apply Z.pow_lt_mono_r; lia).
  lia.
Qed.

(** *** Rounded results are in the representation of the format *)

Lemma Zdigits2_unique (m k : Z) :
  0 < k -> 2 ^ (k - 1) <= m < 2 ^ k -> Zdigits2 m = k.
Proof.
  intros Hk [Hlo Hhi].
  assert (0 < 2 ^ (k - 1)) by (apply Z.pow_pos_nonneg; lia).
  assert (Zdigits2 m <= k) by (apply Zdigits2_le; lia).
  assert (k - 1 + 1 <= Zdigits2 m) by (apply Zdigits2_ge; lia).
  lia.
Qed.

Lemma Zdigits2_pos_bounds (m : Z) :
  0 < m -> 2 ^ (Zdigits2 m - 1) <= m < 2 ^ Zdigits2 m.
Proof. destruct m as [|p|p]; try lia. intros _. apply digits2_pos_bounds. Qed.

Lemma Zdigits2_shift (m k : Z) :
  0 < m -> 0 <= k -> Zdigits2 (m * 2 ^ k) = Zdigits2 m + k.
Proof.
  intros Hm Hk. pose proof (Zdigits2_pos_bounds m Hm) as [Hlo Hhi].
  assert (Hd : 0 < Zdigits2 m) by (destruct m; simpl; lia).
  assert (Hp : 0 < 2 ^ k) by (apply Z.pow_pos_nonneg; lia).
  apply Zdigits2_unique; [lia|]. split.
  - replace (Zdigits2 m + k - 1) with (Zdigits2 m - 1 + k) by lia.
    rewrite Z.pow_add_r by lia. apply Z.mul_le_mono_nonneg_r; lia.
  - rewrite Z.pow_add_r by lia. apply Z.mul_lt_mono_pos_r; lia.
Qed.

Lemma Zdigits2_div_exact (m n : Z) :
  0 < m -> 0 <= n < Zdigits2 m -> Zdigits2 (m / 2 ^ n) = Zdigits2 m - n.
Proof.
  intros Hm Hn. pose proof (Zdigits2_pos_bounds m Hm) as [Hlo Hhi].
  assert (Hp : 0 < 2 ^ n) by (apply Z.pow_pos_nonneg; lia).
  apply Zdigits2_unique; [lia|]. split.
  - apply Z.div_le_lower_bound; [lia|].
    rewrite <- Z.pow_add_r by lia.
    replace (n + (Zdigits2 m - n - 1)) with (Zdigits2 m - 1) by lia. exact Hlo.
  - apply Z.div_lt_upper_bound; [lia|].
    rewrite <- Z.pow_add_r by lia.
    replace (n + (Zdigits2 m - n)) with (Zdigits2 m) by lia. exact Hhi.
Qed.

(** The result of [binary_round] is in the representation of the format:
    its mantissa has [prec] digits, or its exponent is the least one. *)
Lemma binary_round_valid (prec emax : Z) (s : bool) (m : positive) (e : Z) :
  0 < prec ->
  valid_binary prec emax (binary_round prec emax s m e) = true.
Proof.
  intros Hprec. unfold binary_round.
  set (mu := Z.pos (digits2_pos m) + e).
  destruct (shl_align_spec m e (fexp prec emax mu)) as [He0 Hz].
  destruct (shl_align m e (fexp prec emax mu)) as [mz e0].
  cbn [fst snd] in He0, Hz. rewrite <- He0 in Hz.
  assert (Hle : e0 <= e) by lia.
  assert (Hdz : Z.pos (digits2_pos mz) + e0 = mu).
  { change (Z.pos (digits2_pos mz)) with (Zdigits2 (Z.pos mz)).
    rewrite Hz, Zdigits2_shift by lia. simpl Zdigits2. unfold mu. lia. }
  destruct (binary_round_aux_spec prec emax s mz e0) as (m2 & H2 & _ & ->).
  rewrite Hdz in H2 |- *.
  set (d := Z.pos (digits2_pos mz)) in *.
  set (e1 := Z.max e0 (fexp prec emax mu)) in *.
  assert (Ee1 : e1 = fexp prec emax mu) by (unfold e1; lia).
  set (m1 := Z.pos mz / 2 ^ (e1 - e0)) in *.
  assert (Hn1 : 0 <= e1 - e0) by (unfold e1; lia).
  assert (Hm1 : 0 <= m1) by (apply Z.div_pos; [lia | apply Z.pow_pos_nonneg; lia]).
  assert (Hm2 : 0 <= m2) by lia.
  set (e3 := Z.max e1 (fexp prec emax (Zdigits2 m2 + e1))).
  assert (Hn2 : 0 <= e3 - e1) by (unfold e3; lia).
  assert (Hcanon : forall p, m2 / 2 ^ (e3 - e1) = Z.pos p ->
                     fexp prec emax (Z.pos (digits2_pos p) + e3) = e3).
  { intros p Ep.
    change (Z.pos (digits2_pos p)) with (Zdigits2 (Z.pos p)). rewrite <- Ep.
    assert (Hdpos : 0 < d) by (unfold d; lia).
    destruct (Z_le_gt_dec (emin prec emax) (mu - prec)) as [Hnorm | Hsub].
    - (* normal range: the first stage leaves [prec] digits *)
      assert (E1 : e1 = mu - prec) by (rewrite Ee1; unfold fexp; lia).
      assert (Hd1 : Zdigits2 m1 = prec).
      { unfold m1. rewrite Zdigits2_div_exact; simpl Zdigits2; fold d; lia. }
      assert (Hpos1 : 0 < m1) by (destruct m1; simpl in Hd1; lia).
      assert (Hd2 : prec <= Zdigits2 m2 <= prec + 1).
      { destruct H2 as [-> | ->]; [lia|].
        pose proof (Zdigits2_succ m1 Hm1).
        pose proof (Zdigits2_pos_bounds m1 Hpos1) as [Hlo _].
        assert (Zdigits2 m1 - 1 + 1 <= Zdigits2 (m1 + 1))
          by (apply Zdigits2_ge; lia).
        lia. }
      assert (E3 : e3 = Zdigits2 m2 + e1 - prec) by (unfold e3, fexp; lia).
      assert (Hpos2 : 0 < m2) by lia.
      rewrite Zdigits2_div_exact by lia.
      unfold fexp. lia.
    - (* subnormal range: the exponent stays the least one *)
      assert (E1 : e1 = emin prec emax) by (rewrite Ee1; unfold fexp; lia).
      assert (Hd1 : Zdigits2 m1 <= Z.max 0 (d - (e1 - e0)))
        by (apply (Zdigits2_div_pow (Z.pos mz)); lia).
      assert (Hd2 : Zdigits2 m2 <= prec).
      { destruct H2 as [-> | ->]; [lia|]. pose proof (Zdigits2_succ m1 Hm1). lia. }
      assert (E3 : e3 = e1) by (unfold e3, fexp; lia).
      rewrite E3, Z.sub_diag, Z.pow_0_r, Z.div_1_r.
      pose proof (Zdigits2_nonneg m2). unfold fexp. lia. }
  destruct (m2 / 2 ^ (e3 - e1)) as [|p|p] eqn:E; [reflexivity| |reflexivity].
  destruct (e3 <=? emax - prec) eqn:Hfin; [|reflexivity].
  cbn [valid_binary]. unfold bounded, canonical_mantissa.
  rewrite (Hcanon p eq_refl), Z.eqb_refl, Hfin. reflexivity.
Qed.

Lemma binary_round_magnitude (prec emax : Z) (s : bool) (m : positive) (e k : Z) :
  0 < prec ->
  Z.pos (digits2_pos m) + e <= k ->
  k < emax -> emin prec emax <= emax - prec ->
  magnitude_below (Z.max k (emin prec emax) + 1) (binary_round prec emax s m e) = true.
Proof.
  intros Hprec Hk Hemax Hemin. unfold binary_round.
  set (mu := Z.pos (digits2_pos m) + e) in *.
  destruct (shl_align_spec m e (fexp prec emax mu)) as [He0 Hz].
  destruct (shl_align m e (fexp prec emax mu)) as [mz e0].
  cbn [fst snd] in He0, Hz. rewrite <- He0 in Hz.
  assert (Hdz : Z.pos (digits2_pos mz) + e0 = mu).
  { change (Z.pos (digits2_pos mz)) with (Zdigits2 (Z.pos mz)).
    rewrite Hz, Zdigits2_shift by lia. simpl Zdigits2. unfold mu. lia. }
  apply binary_round_aux_magnitude; try assumption; try lia.
  unfold fexp in He0. lia.
Qed.

Lemma magnitude_finite (k : Z) (a : spec_float) :
  magnitude_below k a = true -> F32.is_finite a = true.
Proof. destruct a; simpl; intros; try discriminate; reflexivity. Qed.

(** The [float] of a [double] that is a [float] already is that [float]. *)
Lemma to_float_exact (a : float) :
  valid_binary F32.prec F32.emax a = true -> F64.to_float a = a.
Proof.
  destruct a as [s|s| |s m e]; try reflexivity.
  cbn [valid_binary F64.to_float]. unfold bounded, canonical_mantissa. intros H.
  apply andb_prop in H as [Hc Hb]. apply Z.eqb_eq in Hc.
  unfold binary_round, shl_align. rewrite Hc, Z.sub_diag.
  destruct (binary_round_aux_spec F32.prec F32.emax s m e) as (m2 & _ & Hdown & ->).
  rewrite Hc, Z.max_id in Hdown |- *.
  rewrite Z.sub_diag, Z.pow_0_r, Z.div_1_r in Hdown.
  rewrite (Hdown (or_introl eq_refl)).
  change (Zdigits2 (Z.pos m)) with (Z.pos (digits2_pos m)).
  rewrite Hc, Z.max_id, Z.sub_diag, Z.pow_0_r, Z.div_1_r, Hb. reflexivity.
Qed.

(** The [float] of a [double] of magnitude below [2^127] is a binary32
    number: the rounding does not overflow. *)
Lemma to_float_number (k : Z) (a : spec_float) :
  magnitude_below k a = true -> k < 127 -> F32.is_number (F64.to_float a) = true.
Proof.
  intros Ha Hk. destruct a as [s|s| |s m e]; try discriminate; [reflexivity|].
  cbn [magnitude_below] in Ha. apply Z.leb_le in Ha.
  unfold F32.is_number, F64.to_float. apply andb_true_intro. split.
  - apply (magnitude_finite (Z.max k (emin F32.prec F32.emax) + 1)).
    apply binary_round_magnitude; unfold emin, F32.prec, F32.emax; lia.
  - apply binary_round_valid. reflexivity.
Qed.

(** A sum with a zero, rounded to [float]. *)
Lemma to_float_add_zero (a b : spec_float) :
  F32.is_zero b = true ->
  F32.num_eq (F64.to_float (F64.add a b)) (F64.to_float a).
Proof.
  destruct b as [sb|sb| |sb mb eb]; try discriminate. intros _.
  destruct a as [sa|sa| |sa ma ea]; try (left; reflexivity).
  right. destruct sa, sb; split; reflexivity.
Qed.

End Rounding.

(** ** Whole degrees *)

Lemma whole_degrees_In (n : nat) (k : Z) :
  (0 <= k < Z.of_nat n)%Z -> In k (whole_degrees n).
Proof.
  intros Hk. unfold whole_degrees. apply in_map_iff.
  exists (Z.to_nat k). split; [lia|]. apply in_seq. lia.
Qed.

Lemma whole_degrees_check (P : Z -> bool) (n : nat) :
  forallb P (whole_degrees n) = true ->
  forall k, (0 <= k < Z.of_nat n)%Z -> P k = true.
Proof.
  intros H k Hk. rewrite forallb_forall in H. apply H, whole_degrees_In, Hk.
Qed.

Lemma zenith_degrees_below_180 (k : Z) :
  (0 <= k < 180)%Z ->
  F32.le F32.zero (F32.of_int k) = true /\ F32.lt (F32.of_int k) (F32.of_int 180) = true.
Proof.
  intros Hk. apply andb_prop.
  apply (whole_degrees_check
           (fun k => F32.le F32.zero (F32.of_int k)
                     && F32.lt (F32.of_int k) (F32.of_int 180)) 180);
    [vm_compute; reflexivity | exact Hk].
Qed.

Lemma trig_bounded_checked (sin cos : spec_float -> spec_float) (radians : float -> float) :
  trig_bounded_check sin cos radians = true ->
  trig_bounded_on_degrees sin cos radians.
Proof.
  intros H k Hk. apply andb_prop.
  exact (whole_degrees_check _ 360 H k Hk).
Qed.

Lemma trig_bounded_finite (sin cos : spec_float -> spec_float) (radians : float -> float) :
  trig_bounded_on_degrees sin cos radians -> trig_finite_on_degrees sin cos radians.
Proof.
  intros H k Hk. destruct (H k Hk) as [Hs Hc].
  split; [exact (magnitude_finite 1 _ Hs) | exact (magnitude_finite 1 _ Hc)].
Qed.

Lemma libm_trig_bounded : trig_bounded_on_degrees libm_sin libm_cos glm_radians.
Proof. apply trig_bounded_checked. vm_compute. reflexivity. Qed.

Lemma libm_trig_finite : trig_finite_on_degrees libm_sin libm_cos glm_radians.
Proof. exact (trig_bounded_finite _ _ _ libm_trig_bounded). Qed.

(** ** Running the tick *)

Section TickFacts.

Variables sin cos : spec_float -> spec_float.
Variable radians : float -> float.
Variable rand_seq : nat -> N.


Lemma reset_run (w : World) :
  reset rand_seq w =
  (tt, {| ray := reset_ray (rand_seq (rand_calls w)) (rand_seq (S (rand_calls w))) (ray w);
          rand_calls := S (S (rand_calls w));
          trace := trace w ++ [CallRand (rand_seq (rand_calls w));
                               CallRand (rand_seq (S (rand_calls w)))] |}).
Proof.
  unfold reset, bind, modify_ray, rand, reset_ray; simpl.
  rewrite <- app_assoc. reflexivity.
Qed.

Lemma sphere_loop_miss (pre rest : list Sphere) (w : World) :
  Forall (fun s => hits (ray w) s = false) pre ->
  sphere_loop rand_seq (pre ++ rest) w =
  sphere_loop rand_seq rest
    {| ray := ray w; rand_calls := rand_calls w; trace := trace w ++ missed pre |}.
Proof.
  revert w. induction pre as [|s pre IH]; intros w Hpre.
  - simpl. rewrite app_nil_r. destruct w; reflexivity.
  - inversion Hpre as [|s' pre' Hs Hrest]; subst.
    simpl. unfold bind at 1. unfold call_intersectsSphere, bind, get_ray, emit, ret.
    unfold hits in Hs. rewrite Hs.
    rewrite IH by exact Hrest. simpl. rewrite <- app_assoc. reflexivity.
Qed.

Lemma sphere_loop_hit (s : Sphere) (post : list Sphere) (w : World) :
  hits (ray w) s = true ->
  sphere_loop rand_seq (s :: post) w =
  (true,
   {| ray := reset_ray (rand_seq (rand_calls w)) (rand_seq (S (rand_calls w))) (ray w);
      rand_calls := S (S (rand_calls w));
      trace := trace w ++ [CallIntersectsSphere s true;
                           PrintHitSphere (sphere_x s) (sphere_y s) (sphere_z s);
                           CallRand (rand_seq (rand_calls w));
                           CallRand (rand_seq (S (rand_calls w)))] |}).
Proof.
  intros Hs. simpl. unfold bind at 1.
  unfold call_intersectsSphere, bind, get_ray, emit, ret.
  unfold hits in Hs. rewrite Hs. rewrite reset_run. simpl.
  repeat rewrite <- app_assoc. reflexivity.
Qed.

Lemma sphere_loop_nil (w : World) : sphere_loop rand_seq [] w = (false, w).
Proof. reflexivity. Qed.

(** Either no sphere of the list contains the ray, or there is a first one
    that does. *)
Lemma first_hit_split (r : Ray) (spheres : list Sphere) :
  Forall (fun s => hits r s = false) spheres
  \/ exists pre s post,
       spheres = pre ++ s :: post
       /\ Forall (fun s' => hits r s' = false) pre
       /\ hits r s = true.
Proof.
  induction spheres as [|s spheres IH].
  - left. constructor.
  - destruct (hits r s) eqn:Hs.
    + right. exists [], s, spheres. repeat split; [constructor | exact Hs].
    + destruct IH as [Hall | (pre & s' & post & -> & Hpre & Hs')].
      * left. constructor; assumption.
      * right. exists (s :: pre), s', post.
        repeat split; [constructor; assumption | exact Hs'].
Qed.

(** The three ways a tick ends. *)
Lemma update_hit (w : World) (pre post : list Sphere) (s : Sphere) :
  Forall (fun s' => hits (advance sin cos radians (ray w)) s' = false) pre ->
  hits (advance sin cos radians (ray w)) s = true ->
  exec (update sin cos radians rand_seq (pre ++ s :: post)) w =
  {| ray := reset_ray (rand_seq (rand_calls w)) (rand_seq (S (rand_calls w)))
                      (advance sin cos radians (ray w));
     rand_calls := S (S (rand_calls w));
     trace := trace w ++ CallUpdatePosition :: missed pre ++
                [CallIntersectsSphere s true;
                 PrintHitSphere (sphere_x s) (sphere_y s) (sphere_z s);
                 CallRand (rand_seq (rand_calls w));
                 CallRand (rand_seq (S (rand_calls w)))] |}.
Proof.
  intros Hpre Hs. unfold exec, update.
  unfold bind at 1. unfold modify_ray at 1.
  unfold bind at 1. unfold call_updatePosition, bind, emit, modify_ray. simpl.
  fold (bind (A := bool) (B := unit)).
  unfold bind. rewrite sphere_loop_miss by exact Hpre.
  rewrite sphere_loop_hit by exact Hs. simpl.
  repeat rewrite <- app_assoc. reflexivity.
Qed.

Lemma update_miss (w : World) (spheres : list Sphere) :
  Forall (fun s => hits (advance sin cos radians (ray w)) s = false) spheres ->
  exec (update sin cos radians rand_seq spheres) w =
  if isOutsideCube (advance sin cos radians (ray w)) then
    {| ray := reset_ray (rand_seq (rand_calls w)) (rand_seq (S (rand_calls w)))
                        (advance sin cos radians (ray w));
       rand_calls := S (S (rand_calls w));
       trace := trace w ++ CallUpdatePosition :: missed spheres ++
                  [CallIsOutsideCube true;
                   PrintAtBoundary (x (advance sin cos radians (ray w))) (y (advance sin cos radians (ray w)))
                                   (z (advance sin cos radians (ray w)))
                                   (gridHalfSize (advance sin cos radians (ray w)));
                   CallRand (rand_seq (rand_calls w));
                   CallRand (rand_seq (S (rand_calls w)))] |}
  else
    {| ray := advance sin cos radians (ray w);
       rand_calls := rand_calls w;
       trace := trace w ++ CallUpdatePosition :: missed spheres ++
                  [CallIsOutsideCube false] |}.
Proof.
  intros Hall. unfold exec, update.
  unfold bind at 1. unfold modify_ray at 1.
  unfold bind at 1. unfold call_updatePosition, bind, emit, modify_ray. simpl.
  fold (bind (A := bool) (B := unit)).
  unfold bind. rewrite <- (app_nil_r spheres) at 1.
  rewrite sphere_loop_miss by exact Hall.
  rewrite sphere_loop_nil.
  unfold call_isOutsideCube, bind, get_ray, emit, ret. simpl.
  fold (advance sin cos radians (ray w)).
  destruct (isOutsideCube (advance sin cos radians (ray w))) eqn:Hout.
  - rewrite reset_run. simpl. repeat rewrite <- app_assoc. reflexivity.
  - simpl. repeat rewrite <- app_assoc. reflexivity.
Qed.

Lemma printed_missed (pre : list Sphere) : printed (missed pre) = [].
Proof. induction pre as [|s pre IH]; [reflexivity | exact IH]. Qed.

Lemma miss_existsb (r : Ray) (spheres : list Sphere) :
  Forall (fun s => hits r s = false) spheres -> existsb (hits r) spheres = false.
Proof.
  induction 1 as [|s l Hs _ IH]; simpl; [reflexivity|]. rewrite Hs, IH. reflexivity.
Qed.

Lemma miss_not_In (r : Ray) (spheres : list Sphere) (s : Sphere) :
  Forall (fun s' => hits r s' = false) spheres -> In s spheres -> hits r s = true -> False.
Proof.
  intros Hall Hin Hs. rewrite Forall_forall in Hall.
  specialize (Hall s Hin). congruence.
Qed.

(** The ray a tick leaves. *)
Lemma update_ray (w : World) (spheres : list Sphere) :
  ray (exec (update sin cos radians rand_seq spheres) w) =
  if existsb (hits (advance sin cos radians (ray w))) spheres || isOutsideCube (advance sin cos radians (ray w))
  then reset_ray (rand_seq (rand_calls w)) (rand_seq (S (rand_calls w)))
                 (advance sin cos radians (ray w))
  else advance sin cos radians (ray w).
Proof.
  destruct (first_hit_split (advance sin cos radians (ray w)) spheres)
    as [Hall | (pre & s & post & -> & Hpre & Hs)].
  - rewrite update_miss by exact Hall. rewrite miss_existsb by exact Hall. simpl.
    destruct (isOutsideCube (advance sin cos radians (ray w))); reflexivity.
  - rewrite update_hit by assumption.
    rewrite existsb_app. simpl. rewrite Hs, orb_true_r. reflexivity.
Qed.

Lemma mod_whole_degree (a n : N) :
  (0 < n)%N -> whole_degree_below (Z.of_N n) (F32.of_int (Z.of_N (a mod n))).
Proof.
  intros Hn. exists (Z.of_N (a mod n)). split; [|reflexivity].
  assert (Hlt : (a mod n < n)%N) by (apply N.mod_lt; lia).
  revert Hlt. generalize (a mod n)%N. intros m Hlt. lia.
Qed.

Lemma reset_ray_invariant (a b : N) (r : Ray) :
  speed r = speed Ray_new -> gridHalfSize r = gridHalfSize Ray_new ->
  ray_invariant (reset_ray a b r).
Proof.
  intros Hs Hg. unfold ray_invariant, reset_ray; simpl.
  repeat split; try assumption.
  - exact (mod_whole_degree a 180 eq_refl).
  - exact (mod_whole_degree b 360 eq_refl).
Qed.

Lemma advance_invariant (r : Ray) : ray_invariant r -> ray_invariant (advance sin cos radians r).
Proof. intros H; exact H. Qed.

Lemma reachable_invariant (w : World) :
  reachable sin cos radians rand_seq w -> ray_invariant (ray w).
Proof.
  induction 1 as [|spheres w Hw IH].
  - unfold ray_invariant; simpl. repeat split.
    + exists 45%Z. split; [lia | reflexivity].
    + exists 45%Z. split; [lia | reflexivity].
  - rewrite update_ray.
    destruct (existsb _ spheres || isOutsideCube _).
    + destruct IH as (_ & _ & Hs & Hg). apply reset_ray_invariant; assumption.
    + apply advance_invariant, IH.
Qed.

(** The length of the ray stays in range: a reset makes it zero, and a
    move adds the speed. *)
Lemma reachable_length (w : World) :
  reachable sin cos radians rand_seq w ->
  length_in_range (currentLength (ray w)) = true.
Proof.
  induction 1 as [|spheres w Hw IH]; [reflexivity|].
  rewrite update_ray.
  destruct (existsb _ spheres || isOutsideCube _); [reflexivity|].
  pose proof (reachable_invariant w Hw) as (_ & _ & Hs & _).
  unfold advance, updatePosition; cbn [currentLength set_xyz set_currentLength].
  rewrite Hs. apply add_speed_in_range, IH.
Qed.

End TickFacts.

(** ** The claims about one tick *)

Section TickClaims.

Variables sin cos : spec_float -> spec_float.
Variable radians : float -> float.
Variable rand_seq : nat -> N.


Lemma In_missed (st : Step) (pre : list Sphere) :
  In st (missed pre) -> exists s, In s pre /\ st = CallIntersectsSphere s false.
Proof.
  unfold missed. rewrite in_map_iff. intros (s & <- & Hin). exists s. split; [exact Hin | reflexivity].
Qed.

(** C2: a tick first adds [speed] to [currentLength] and recomputes the
    position from zenith, azimuth and the new length, reading neither the
    spheres nor the half size; everything else the tick does, it does to
    that moved ray [r1].  The world it leaves is one of three: no sphere of
    the list contains [r1] and [r1] is not outside the cube, and then the
    ray is [r1] itself (length and position as moved), after the sphere
    tests and the boundary test, all evaluated on [r1]; or no sphere contains
    [r1] and [r1] is outside, and then the tick prints the position of [r1]
    and resets; or some first sphere contains [r1], and then the tick prints
    that sphere and resets. *)
Theorem update_moves_first (w : World) (spheres : list Sphere) :
  let r0 := ray w in
  let r1 := advance sin cos radians r0 in
  let a := rand_seq (rand_calls w) in
  let b := rand_seq (S (rand_calls w)) in
  let w' := exec (update sin cos radians rand_seq spheres) w in
  (currentLength r1 = F32.add (currentLength r0) (speed r0)
   /\ x r1 = spherical_x sin cos radians (zenith r0) (azimuth r0) (currentLength r1)
   /\ y r1 = spherical_y cos radians (zenith r0) (currentLength r1)
   /\ z r1 = spherical_z sin radians (zenith r0) (azimuth r0) (currentLength r1)
   /\ zenith r1 = zenith r0 /\ azimuth r1 = azimuth r0
   /\ speed r1 = speed r0 /\ gridHalfSize r1 = gridHalfSize r0)
  /\ ((Forall (fun s => hits r1 s = false) spheres
       /\ isOutsideCube r1 = false
       /\ w' = {| ray := r1;
                  rand_calls := rand_calls w;
                  trace := trace w ++ CallUpdatePosition :: missed spheres ++
                             [CallIsOutsideCube false] |})
      \/ (Forall (fun s => hits r1 s = false) spheres
          /\ isOutsideCube r1 = true
          /\ w' = {| ray := reset_ray a b r1;
                     rand_calls := S (S (rand_calls w));
                     trace := trace w ++ CallUpdatePosition :: missed spheres ++
                                [CallIsOutsideCube true;
                                 PrintAtBoundary (x r1) (y r1) (z r1) (gridHalfSize r1);
                                 CallRand a; CallRand b] |})
      \/ (exists pre s post,
            spheres = pre ++ s :: post
            /\ Forall (fun s' => hits r1 s' = false) pre
            /\ hits r1 s = true
            /\ w' = {| ray := reset_ray a b r1;
                       rand_calls := S (S (rand_calls w));
                       trace := trace w ++ CallUpdatePosition :: missed pre ++
                                  [CallIntersectsSphere s true;
                                   PrintHitSphere (sphere_x s) (sphere_y s) (sphere_z s);
                                   CallRand a; CallRand b] |})).
Proof.
  intros r0 r1 a b w'.
  split; [repeat split|].
  destruct (first_hit_split r1 spheres) as [Hall | (pre & s & post & -> & Hpre & Hs)];
    unfold w', r1, r0, a, b in *.
  - rewrite (update_miss sin cos radians rand_seq w spheres Hall).
    destruct (isOutsideCube (advance sin cos radians (ray w))) eqn:Hout.
    + right. left. repeat split; assumption.
    + left. repeat split; assumption.
  - right. right. exists pre, s, post.
    rewrite (update_hit sin cos radians rand_seq w pre post s Hpre Hs).
    repeat split; assumption.
Qed.

(** C3: when the moved ray [r1] is both within a sphere of the list and
    outside the cube, the tick is a sphere hit: the spheres before the first
    one that contains [r1] are tested and missed, that sphere is tested,
    its hit is printed, the ray is reset with the next two draws, and the
    tick ends there.  These are all the steps of the tick: the boundary
    test is not evaluated, no boundary line is printed, and the one line
    printed is the hit. *)
Theorem collision_has_priority (w : World) (spheres : list Sphere) :
  let r1 := advance sin cos radians (ray w) in
  let a := rand_seq (rand_calls w) in
  let b := rand_seq (S (rand_calls w)) in
  let w' := exec (update sin cos radians rand_seq spheres) w in
  (exists s, In s spheres /\ hits r1 s = true) ->
  isOutsideCube r1 = true ->
  exists pre s post new,
    spheres = pre ++ s :: post
    /\ Forall (fun s' => hits r1 s' = false) pre
    /\ hits r1 s = true
    /\ new = CallUpdatePosition :: missed pre ++
               [CallIntersectsSphere s true;
                PrintHitSphere (sphere_x s) (sphere_y s) (sphere_z s);
                CallRand a; CallRand b]
    /\ w' = {| ray := reset_ray a b r1;
               rand_calls := S (S (rand_calls w));
               trace := trace w ++ new |}
    /\ printed new = [PrintHitSphere (sphere_x s) (sphere_y s) (sphere_z s)]
    /\ (forall st, In st new -> is_boundary_step st = false).
Proof.
  intros r1 a b w' (s0 & Hin0 & Hs0) _.
  destruct (first_hit_split r1 spheres) as [Hall | (pre & s & post & -> & Hpre & Hs)].
  - exfalso. exact (miss_not_In r1 spheres s0 Hall Hin0 Hs0).
  - exists pre, s, post. eexists. split; [reflexivity|].
    split; [exact Hpre|]. split; [exact Hs|]. split; [reflexivity|]. split; [|split].
    + unfold w', r1, a, b in *.
      exact (update_hit sin cos radians rand_seq w pre post s Hpre Hs).
    + change (CallUpdatePosition :: missed pre ++ ?l)
        with ([CallUpdatePosition] ++ missed pre ++ l).
      unfold printed. rewrite !filter_app.
      fold (printed (missed pre)). rewrite printed_missed. reflexivity.
    + intros st [<- | H]; [reflexivity|].
      apply in_app_or in H as [H | H].
      * apply In_missed in H as (s' & _ & ->). reflexivity.
      * simpl in H.
        destruct H as [<- | [<- | [<- | [<- | []]]]]; reflexivity.
Qed.

(** C4: the sphere test is [squared distance <= radius * radius]; a tick
    tests the spheres in list order.  Either no sphere of the list contains
    the moved ray, and then all are tested in order and the boundary test
    follows; or there is a first sphere [s] of the list that contains it,
    and then the tick tests the spheres before [s], then [s], prints the hit
    of [s], resets and ends: no sphere after [s] is tested or reported,
    whether it contains the ray or not. *)
Theorem first_sphere_in_order_wins (w : World) (spheres : list Sphere) :
  let r1 := advance sin cos radians (ray w) in
  let new_steps (steps : list Step) :=
    trace (exec (update sin cos radians rand_seq spheres) w)
    = trace w ++ CallUpdatePosition :: steps in
  (forall r s, hits r s = true <->
      F32.le (sq_dist r s) (F32.mul (sphere_radius s) (sphere_radius s)) = true)
  /\ (Forall (fun s => hits r1 s = false) spheres
      \/ exists pre s post,
           spheres = pre ++ s :: post
           /\ Forall (fun s' => hits r1 s' = false) pre
           /\ hits r1 s = true)
  /\ (forall pre s post,
        spheres = pre ++ s :: post ->
        Forall (fun s' => hits r1 s' = false) pre ->
        hits r1 s = true ->
        new_steps (missed pre ++
                   [CallIntersectsSphere s true;
                    PrintHitSphere (sphere_x s) (sphere_y s) (sphere_z s);
                    CallRand (rand_seq (rand_calls w));
                    CallRand (rand_seq (S (rand_calls w)))]))
  /\ (Forall (fun s => hits r1 s = false) spheres ->
      exists b rest, new_steps (missed spheres ++ CallIsOutsideCube b :: rest)).
Proof.
  intros r1 new_steps. split; [|split; [|split]].
  - intros r s. unfold hits, intersectsSphere, sq_dist. reflexivity.
  - apply first_hit_split.
  - intros pre s post -> Hpre Hs. unfold new_steps, r1 in *.
    rewrite (update_hit sin cos radians rand_seq w pre post s Hpre Hs). reflexivity.
  - intros Hall. unfold new_steps, r1 in *.
    rewrite (update_miss sin cos radians rand_seq w spheres Hall).
    destruct (isOutsideCube (advance sin cos radians (ray w))); simpl;
      eexists; eexists; reflexivity.
Qed.

(** C5: a tick in which the moved ray is within a sphere of the list, or
    outside the cube, leaves [currentLength] and the three coordinates at
    [+0.0] exactly, the zenith at the whole number [rand() % 180] and the
    azimuth at the whole number [rand() % 360] of the next two draws, and
    the speed as it was. *)
Theorem reset_is_exact (w : World) (spheres : list Sphere) :
  let r1 := advance sin cos radians (ray w) in
  let r' := ray (exec (update sin cos radians rand_seq spheres) w) in
  (exists s, In s spheres /\ hits r1 s = true) \/ isOutsideCube r1 = true ->
  currentLength r' = F32.zero
  /\ (x r' = F32.zero /\ y r' = F32.zero /\ z r' = F32.zero)
  /\ zenith r' = F32.of_int (Z.of_N (rand_seq (rand_calls w) mod 180))
  /\ whole_degree_below 180 (zenith r')
  /\ azimuth r' = F32.of_int (Z.of_N (rand_seq (S (rand_calls w)) mod 360))
  /\ whole_degree_below 360 (azimuth r')
  /\ speed r' = speed (ray w).
Proof.
  intros r1 r' Hreset.
  assert (Hr' : r' = reset_ray (rand_seq (rand_calls w)) (rand_seq (S (rand_calls w))) r1).
  { unfold r', r1. rewrite update_ray.
    destruct Hreset as [(s & Hin & Hs) | Hout].
    - assert (E : existsb (hits (advance sin cos radians (ray w))) spheres = true)
        by (apply existsb_exists; exists s; split; assumption).
      rewrite E. reflexivity.
    - unfold r1 in Hout. rewrite Hout, orb_true_r. reflexivity. }
  rewrite Hr'. simpl. repeat split.
  - exact (mod_whole_degree (rand_seq (rand_calls w)) 180 eq_refl).
  - exact (mod_whole_degree (rand_seq (S (rand_calls w))) 360 eq_refl).
Qed.

End TickClaims.

(** ** The claims about every state the program reaches *)

Section ReachableClaims.

Variables sin cos : spec_float -> spec_float.
Variable radians : float -> float.
Variable rand_seq : nat -> N.


(** A ray of length zero at the origin is consistent at any whole degrees:
    each coordinate of the mapping is zero times finite numbers. *)
Lemma origin_consistent (r : Ray) :
  trig_finite_on_degrees sin cos radians ->
  whole_degree_below 360 (zenith r) ->
  whole_degree_below 360 (azimuth r) ->
  currentLength r = F32.zero ->
  x r = F32.zero -> y r = F32.zero -> z r = F32.zero ->
  position_consistent sin cos radians r.
Proof.
  intros Htrig (kz & Hkz & Ez) (ka & Hka & Ea) El Ex Ey Ez'.
  destruct (Htrig kz Hkz) as [Hsz Hcz]. destruct (Htrig ka Hka) as [Hsa Hca].
  unfold position_consistent, spherical_x, spherical_y, spherical_z.
  rewrite Ex, Ey, Ez', El, Ez, Ea.
  repeat split; apply num_eq_zeros; try reflexivity; apply to_float_zero.
  - apply mul_zero_l; [apply mul_zero_l; [reflexivity | exact Hsz] | exact Hca].
  - apply mul_zero_l; [reflexivity | exact Hcz].
  - apply mul_zero_l; [apply mul_zero_l; [reflexivity | exact Hsz] | exact Hsa].
Qed.

Lemma whole_degree_weaken (a : float) :
  whole_degree_below 180 a -> whole_degree_below 360 a.
Proof. intros (k & Hk & E). exists k. split; [lia | exact E]. Qed.

Lemma reachable_consistent (w : World) :
  trig_finite_on_degrees sin cos radians ->
  reachable sin cos radians rand_seq w ->
  position_consistent sin cos radians (ray w).
Proof.
  intros Htrig Hw. destruct Hw as [|spheres w Hw].
  - apply origin_consistent; try reflexivity; try exact Htrig;
      exists 45%Z; (split; [lia | reflexivity]).
  - rewrite update_ray.
    destruct (existsb _ spheres || isOutsideCube _).
    + pose proof (reachable_invariant sin cos radians rand_seq w Hw)
        as (_ & _ & Hs & Hg).
      pose proof (reset_ray_invariant (rand_seq (rand_calls w))
                    (rand_seq (S (rand_calls w))) (advance sin cos radians (ray w)) Hs Hg)
        as (Hz & Ha & _ & _).
      apply origin_consistent; try reflexivity; try assumption.
      apply whole_degree_weaken, Hz.
    + repeat split; apply num_eq_refl.
Qed.

(** C1: in every state the program reaches, each cached coordinate equals,
    as a number, the coordinate the spherical mapping gives for the
    zenith, azimuth and length of that state ([x = len * sin(zenith) *
    cos(azimuth)], [y = len * cos(zenith)], [z = len * sin(zenith) *
    sin(azimuth)], angles in degrees, the products taken in [double] and
    rounded to [float]); so does the ray between the move and the tests of
    a tick.  After a reset the cached zeros are the mapping of the new
    angles at length zero.  Hence the position is a function of the other
    three fields: two states the program reaches with the same zenith,
    azimuth and length have the same position.  The library is assumed to
    return finite sines and cosines at whole degrees. *)
Theorem position_matches_mapping (w : World) :
  trig_finite_on_degrees sin cos radians ->
  reachable sin cos radians rand_seq w ->
  position_consistent sin cos radians (ray w)
  /\ position_consistent sin cos radians (advance sin cos radians (ray w))
  /\ (forall w2 : World,
        reachable sin cos radians rand_seq w2 ->
        zenith (ray w2) = zenith (ray w) ->
        azimuth (ray w2) = azimuth (ray w) ->
        currentLength (ray w2) = currentLength (ray w) ->
        F32.num_eq (x (ray w2)) (x (ray w))
        /\ F32.num_eq (y (ray w2)) (y (ray w))
        /\ F32.num_eq (z (ray w2)) (z (ray w))).
Proof.
  intros Htrig Hw.
  pose proof (reachable_consistent w Htrig Hw) as (Hx & Hy & Hz).
  split; [repeat split; assumption|]. split.
  - repeat split; apply num_eq_refl.
  - intros w2 Hw2 Ez Ea El.
    pose proof (reachable_consistent w2 Htrig Hw2) as (Hx2 & Hy2 & Hz2).
    rewrite Ez, Ea, El in Hx2, Hz2. rewrite Ez, El in Hy2.
    repeat split;
      (eapply num_eq_trans; [eassumption | apply num_eq_sym; assumption]).
Qed.

Lemma reset_ray_not_outside (a b : N) (r : Ray) :
  gridHalfSize r = gridHalfSize Ray_new ->
  isOutsideCube (reset_ray a b r) = false /\ inside_cube (reset_ray a b r).
Proof.
  intros Hg. unfold isOutsideCube, inside_cube, reset_ray; simpl. rewrite Hg.
  repeat split; vm_compute; reflexivity.
Qed.

Lemma inside_cube_is_exact (r : Ray) :
  number_coordinates r -> F32.is_number (gridHalfSize r) = true ->
  inside_cube r -> inside_cube_exact r.
Proof.
  intros (Nx & Ny & Nz) Nh (Hx & Hy & Hz). unfold inside_cube_exact.
  rewrite <- !ulps_fabs.
  repeat split; apply le_exact; rewrite ?is_number_fabs; assumption.
Qed.

(** The products of [updatePosition] do not overflow in [double], and
    their [float]s are numbers. *)
Lemma product_numbers (len s c : spec_float) :
  magnitude_below 19 len = true ->
  magnitude_below 1 s = true -> magnitude_below 1 c = true ->
  F32.is_number (F64.to_float (F64.mul (F64.mul len s) c)) = true
  /\ F32.is_number (F64.to_float (F64.mul len c)) = true.
Proof.
  intros Hl Hs Hc.
  assert (H1 : magnitude_below 21 (F64.mul len s) = true).
  { apply (mul_magnitude F64.prec F64.emax 19 1); try assumption;
      unfold emin, F64.prec, F64.emax; lia. }
  assert (H2 : magnitude_below 23 (F64.mul (F64.mul len s) c) = true).
  { apply (mul_magnitude F64.prec F64.emax 21 1); try assumption;
      unfold emin, F64.prec, F64.emax; lia. }
  assert (H3 : magnitude_below 21 (F64.mul len c) = true).
  { apply (mul_magnitude F64.prec F64.emax 19 1); try assumption;
      unfold emin, F64.prec, F64.emax; lia. }
  split; [apply (to_float_number 23) | apply (to_float_number 21)]; try assumption; lia.
Qed.

Lemma updatePosition_numbers (r : Ray) :
  trig_bounded_on_degrees sin cos radians ->
  whole_degree_below 360 (zenith r) ->
  whole_degree_below 360 (azimuth r) ->
  length_in_range (currentLength r) = true ->
  number_coordinates (updatePosition sin cos radians r).
Proof.
  intros Htrig (kz & Hkz & Ez) (ka & Hka & Ea) Hl.
  destruct (Htrig kz Hkz) as [Hsz Hcz]. destruct (Htrig ka Hka) as [Hsa Hca].
  apply length_in_range_magnitude in Hl.
  unfold number_coordinates, updatePosition, F64.of_float; cbn [x y z set_xyz].
  rewrite Ez, Ea.
  split; [|split].
  - exact (proj1 (product_numbers _ _ _ Hl Hsz Hca)).
  - exact (proj2 (product_numbers _ _ _ Hl Hsz Hcz)).
  - exact (proj1 (product_numbers _ _ _ Hl Hsz Hsa)).
Qed.

(** C9: the ray a tick of the running program leaves is inside the cube:
    it is not outside for the boundary test, each of its coordinates is a
    binary32 number (neither NaN nor infinite), and all three coordinate
    magnitudes are at most the half size, in the comparison of the program
    and in exact arithmetic.  After a reset the ray is at the origin;
    otherwise the boundary test of the tick failed on a position that is a
    number.  The library is assumed to return sines and cosines of magnitude
    below 2 at whole degrees. *)
Theorem position_inside_after_tick (w : World) (spheres : list Sphere) :
  trig_bounded_on_degrees sin cos radians ->
  reachable sin cos radians rand_seq w ->
  let r' := ray (exec (update sin cos radians rand_seq spheres) w) in
  isOutsideCube r' = false
  /\ number_coordinates r'
  /\ inside_cube r'
  /\ inside_cube_exact r'.
Proof.
  intros Htrig Hw r'.
  pose proof (reachable_invariant sin cos radians rand_seq w Hw) as (Hz & Ha & Hs & Hg).
  assert (Hh : F32.is_number (gridHalfSize (advance sin cos radians (ray w))) = true).
  { change (gridHalfSize (advance sin cos radians (ray w))) with (gridHalfSize (ray w)).
    rewrite Hg. reflexivity. }
  assert (Hnum : number_coordinates (advance sin cos radians (ray w))).
  { unfold advance. apply updatePosition_numbers; try assumption.
    - apply whole_degree_weaken, Hz.
    - cbn [currentLength set_currentLength]. rewrite Hs.
      apply add_speed_in_range, (reachable_length sin cos radians rand_seq w Hw). }
  unfold r'. rewrite update_ray.
  destruct (existsb _ spheres || isOutsideCube _) eqn:Hreset.
  - destruct (reset_ray_not_outside (rand_seq (rand_calls w)) (rand_seq (S (rand_calls w)))
                (advance sin cos radians (ray w)) Hg) as [Hout Hin].
    assert (Hzero : number_coordinates
                      (reset_ray (rand_seq (rand_calls w)) (rand_seq (S (rand_calls w)))
                         (advance sin cos radians (ray w))))
      by (repeat split).
    split; [exact Hout|]. split; [exact Hzero|]. split; [exact Hin|].
    apply inside_cube_is_exact; [exact Hzero | exact Hh | exact Hin].
  - apply orb_false_elim in Hreset as [_ Hout].
    assert (Hin : inside_cube (advance sin cos radians (ray w))).
    { destruct Hnum as (Nx & Ny & Nz). unfold isOutsideCube in Hout.
      apply orb_false_elim in Hout as [Hout Hzc].
      apply orb_false_elim in Hout as [Hxc Hyc].
      repeat split; apply not_gt_le; try assumption;
        try (rewrite fabs_nan; apply is_number_not_nan; assumption);
        apply is_number_not_nan; exact Hh. }
    split; [exact Hout|]. split; [exact Hnum|]. split; [exact Hin|].
    apply inside_cube_is_exact; assumption.
Qed.

(** C10: the zenith starts at 45, a move leaves it as it is, and in every
    state the program reaches it is a whole number of degrees in [0, 180):
    at least 0, below 180, and never the value 180. *)
Theorem zenith_below_180 (w : World) :
  reachable sin cos radians rand_seq w ->
  zenith Ray_new = F32.of_int 45
  /\ zenith (advance sin cos radians (ray w)) = zenith (ray w)
  /\ whole_degree_below 180 (zenith (ray w))
  /\ F32.le F32.zero (zenith (ray w)) = true
  /\ F32.lt (zenith (ray w)) (F32.of_int 180) = true
  /\ zenith (ray w) <> F32.of_int 180.
Proof.
  intros Hw.
  pose proof (reachable_invariant sin cos radians rand_seq w Hw) as (Hz & _).
  split; [reflexivity|]. split; [reflexivity|]. split; [exact Hz|].
  destruct Hz as (k & Hk & ->).
  destruct (zenith_degrees_below_180 k Hk) as [Hle Hlt].
  repeat split; try assumption.
  intros E. rewrite E in Hlt. vm_compute in Hlt. discriminate.
Qed.

End ReachableClaims.

(** ** The boundary test *)

(** C6: the boundary test answers "outside" exactly when the magnitude of
    some coordinate is greater than the half size, in the comparison of the
    program and, for binary32 numbers, in exact arithmetic; a ray each of
    whose coordinate magnitudes equals the half size or does not exceed it
    is not outside, and with the half size 0.5 of the program the coordinate
    0.5 is inside while the next float above 0.5 is outside. *)
Theorem isOutsideCube_strict (r : Ray) :
  let h := gridHalfSize r in
  let touches_or_within (c : float) :=
    F32.eqb (F32.fabs c) h = true \/ F32.gt (F32.fabs c) h = false in
  (isOutsideCube r = true <->
     F32.gt (F32.fabs (x r)) h = true
     \/ F32.gt (F32.fabs (y r)) h = true
     \/ F32.gt (F32.fabs (z r)) h = true)
  /\ (touches_or_within (x r) -> touches_or_within (y r) -> touches_or_within (z r) ->
      isOutsideCube r = false)
  /\ (F32.is_number (x r) = true -> F32.is_number (y r) = true ->
      F32.is_number (z r) = true -> F32.is_number h = true ->
      (isOutsideCube r = true <->
         (F32.ulps h < Z.abs (F32.ulps (x r))
          \/ F32.ulps h < Z.abs (F32.ulps (y r))
          \/ F32.ulps h < Z.abs (F32.ulps (z r)))%Z))
  /\ isOutsideCube (set_xyz (F32.lit 5 1) F32.zero (F32.lit (-5) 1) Ray_new) = false
  /\ isOutsideCube (set_xyz (S754_finite false 8388609 (-24)) F32.zero F32.zero Ray_new) = true.
Proof.
  intros h touches_or_within.
  assert (Hiff : isOutsideCube r = true <->
                 F32.gt (F32.fabs (x r)) h = true
                 \/ F32.gt (F32.fabs (y r)) h = true
                 \/ F32.gt (F32.fabs (z r)) h = true).
  { unfold isOutsideCube. fold h. rewrite !orb_true_iff. tauto. }
  split; [exact Hiff|]. split; [|split; [|split]].
  - assert (Hc : forall c, touches_or_within c -> F32.gt (F32.fabs c) h = false).
    { intros c [He | Hn]; [|exact Hn]. apply le_not_gt, eqb_le, He. }
    intros Hx Hy Hz. unfold isOutsideCube. fold h.
    rewrite (Hc _ Hx), (Hc _ Hy), (Hc _ Hz). reflexivity.
  - intros Nx Ny Nz Nh. rewrite Hiff.
    rewrite !gt_exact, !ulps_fabs by (rewrite ?is_number_fabs; assumption).
    tauto.
  - vm_compute. reflexivity.
  - vm_compute. reflexivity.
Qed.

(** ** The camera angles *)

Lemma odd_degrees_closed :
  forallb (fun a =>
             F32.le (F32.of_int 1) a && F32.le a (F32.of_int 179)
             && F32.mem (F32.max (F32.of_int 1) (F32.sub a rotationSpeed)) odd_degrees
             && F32.mem (F32.min (F32.of_int 179) (F32.add a rotationSpeed)) odd_degrees)
          odd_degrees = true.
Proof. vm_compute. reflexivity. Qed.

Lemma odd_degree_facts (a : float) :
  In a odd_degrees ->
  F32.le (F32.of_int 1) a = true /\ F32.le a (F32.of_int 179) = true
  /\ In (F32.max (F32.of_int 1) (F32.sub a rotationSpeed)) odd_degrees
  /\ In (F32.min (F32.of_int 179) (F32.add a rotationSpeed)) odd_degrees.
Proof.
  intros Ha. pose proof odd_degrees_closed as H.
  rewrite forallb_forall in H. specialize (H a Ha).
  apply andb_prop in H as [H Hd]. apply andb_prop in H as [H Hu].
  apply andb_prop in H as [H1 H179].
  rewrite mem_In in Hu, Hd. auto.
Qed.

Lemma camera_phi_odd (c : Camera) : camera_reachable c -> In (cameraPhi c) odd_degrees.
Proof.
  induction 1 as [|c _ IH|c _ IH|c _ IH|c _ IH].
  - apply (proj1 (mem_In _ _)). vm_compute. reflexivity.
  - exact IH.
  - exact IH.
  - exact (proj1 (proj2 (proj2 (odd_degree_facts _ IH)))).
  - exact (proj2 (proj2 (proj2 (odd_degree_facts _ IH)))).
Qed.

Lemma handle_keys_reachable (k : Keys) (c : Camera) :
  camera_reachable c -> camera_reachable (handle_keys k c).
Proof.
  intros Hc. unfold handle_keys. destruct k as [[] [] [] []]; simpl;
    repeat (first [ exact Hc | apply camera_right | apply camera_left
                  | apply camera_up | apply camera_down ]).
Qed.

Lemma camera_after_reachable (inputs : list Keys) : camera_reachable (camera_after inputs).
Proof.
  unfold camera_after. generalize camera_start. generalize Camera_init.
  induction inputs as [|k inputs IH]; intros c Hc; simpl; [exact Hc|].
  apply IH, handle_keys_reachable, Hc.
Qed.

Lemma whole_range_In (lo : Z) (n : nat) (k : Z) :
  (lo <= k < lo + Z.of_nat n)%Z -> In k (whole_range lo n).
Proof.
  intros Hk. unfold whole_range. apply in_map_iff.
  exists (Z.to_nat (k - lo)). split; [lia|]. apply in_seq. lia.
Qed.

(** Adding or subtracting 2 is exact on the whole numbers of magnitude up
    to 2100. *)
Lemma theta_step_exact (k : Z) :
  (-2100 <= k <= 2100)%Z ->
  F32.add (F32.of_int k) rotationSpeed = F32.of_int (k + 2)
  /\ F32.sub (F32.of_int k) rotationSpeed = F32.of_int (k - 2).
Proof.
  intros Hk.
  assert (H : forallb (fun k => F32.same (F32.add (F32.of_int k) rotationSpeed)
                                         (F32.of_int (k + 2))
                                && F32.same (F32.sub (F32.of_int k) rotationSpeed)
                                            (F32.of_int (k - 2)))
                      (whole_range (-2100) 4201) = true)
    by (vm_compute; reflexivity).
  rewrite forallb_forall in H.
  specialize (H k (whole_range_In (-2100) 4201 k ltac:(lia))).
  apply andb_prop in H as [Ha Hs]. split; apply same_eq; assumption.
Qed.

Lemma camera_after_snoc (inputs : list Keys) (k : Keys) :
  camera_after (inputs ++ [k]) = handle_keys k (camera_after inputs).
Proof. unfold camera_after. rewrite fold_left_app. reflexivity. Qed.

Lemma repeat_snoc {A : Type} (a : A) (n : nat) : repeat a (S n) = repeat a n ++ [a].
Proof. induction n as [|n IH]; simpl; [reflexivity|]. f_equal. exact IH. Qed.

Lemma theta_only_right (c : Camera) :
  cameraTheta (handle_keys only_right c) = F32.add (cameraTheta c) rotationSpeed.
Proof. reflexivity. Qed.

Lemma theta_only_left (c : Camera) :
  cameraTheta (handle_keys only_left c) = F32.sub (cameraTheta c) rotationSpeed.
Proof. reflexivity. Qed.

Lemma theta_after_rights (n : nat) :
  (n <= 1000)%nat ->
  cameraTheta (camera_after (repeat only_right n)) = F32.of_int (45 + 2 * Z.of_nat n).
Proof.
  induction n as [|n IH]; intros Hn; [reflexivity|].
  rewrite repeat_snoc, camera_after_snoc, theta_only_right, IH by lia.
  destruct (theta_step_exact (45 + 2 * Z.of_nat n) ltac:(lia)) as [-> _].
  f_equal. lia.
Qed.

Lemma theta_after_lefts (n : nat) :
  (n <= 1000)%nat ->
  cameraTheta (camera_after (repeat only_left n)) = F32.of_int (45 - 2 * Z.of_nat n).
Proof.
  induction n as [|n IH]; intros Hn; [reflexivity|].
  rewrite repeat_snoc, camera_after_snoc, theta_only_left, IH by lia.
  destruct (theta_step_exact (45 - 2 * Z.of_nat n) ltac:(lia)) as [_ ->].
  f_equal. lia.
Qed.

(** C7: the polar angle starts at 45 and lies in [1, 179] in every state
    of the camera, after each single key statement and after each frame: the
    UP statement takes the maximum with 1, the DOWN statement the minimum
    with 179.  The azimuth statements only add or subtract the rotation
    speed, the polar statements leave the azimuth as it is, and nothing
    bounds or wraps it: holding RIGHT for [n <= 1000] frames gives exactly
    [45 + 2n] degrees and holding LEFT gives [45 - 2n]. *)
Theorem camera_polar_clamped (c : Camera) :
  camera_reachable c ->
  cameraPhi Camera_init = F32.of_int 45
  /\ (F32.le (F32.of_int 1) (cameraPhi c) = true
      /\ F32.le (cameraPhi c) (F32.of_int 179) = true)
  /\ (cameraPhi (press_up c) = F32.max (F32.of_int 1) (F32.sub (cameraPhi c) rotationSpeed)
      /\ cameraPhi (press_down c) = F32.min (F32.of_int 179) (F32.add (cameraPhi c) rotationSpeed))
  /\ (forall inputs, camera_reachable (camera_after inputs))
  /\ (cameraTheta (press_right c) = F32.add (cameraTheta c) rotationSpeed
      /\ cameraTheta (press_left c) = F32.sub (cameraTheta c) rotationSpeed
      /\ cameraTheta (press_up c) = cameraTheta c
      /\ cameraTheta (press_down c) = cameraTheta c)
  /\ (forall n, (n <= 1000)%nat ->
        cameraTheta (camera_after (repeat only_right n)) = F32.of_int (45 + 2 * Z.of_nat n)
        /\ cameraTheta (camera_after (repeat only_left n)) = F32.of_int (45 - 2 * Z.of_nat n)).
Proof.
  intros Hc.
  destruct (odd_degree_facts _ (camera_phi_odd c Hc)) as (H1 & H179 & _ & _).
  split; [reflexivity|]. split; [split; assumption|].
  split; [split; reflexivity|].
  split; [exact camera_after_reachable|].
  split; [repeat split|].
  intros n Hn. split; [apply theta_after_rights | apply theta_after_lefts]; exact Hn.
Qed.

(** ** The degenerate zeniths *)

Section DegenerateZenith.

Variables sin cos : spec_float -> spec_float.
Variable radians : float -> float.

(** C8, at zenith 0 only: when the library maps 0 degrees to a zero and
    the sine of a zero to a zero, then for every finite length and any two
    azimuths with finite sine and cosine the recomputed positions have the
    same coordinates as numbers, and [x] and [z] are zero. *)
Theorem zenith_zero_on_axis (r1 r2 : Ray) :
  F32.is_zero (radians F32.zero) = true ->
  (forall a, F32.is_zero a = true -> F32.is_zero (sin a) = true) ->
  zenith r1 = F32.of_int 0 ->
  zenith r2 = F32.of_int 0 ->
  currentLength r2 = currentLength r1 ->
  F32.is_finite (currentLength r1) = true ->
  F32.is_finite (sin (radians (azimuth r1))) = true ->
  F32.is_finite (cos (radians (azimuth r1))) = true ->
  F32.is_finite (sin (radians (azimuth r2))) = true ->
  F32.is_finite (cos (radians (azimuth r2))) = true ->
  let p1 := updatePosition sin cos radians r1 in
  let p2 := updatePosition sin cos radians r2 in
  (F32.num_eq (x p1) (x p2) /\ F32.num_eq (y p1) (y p2) /\ F32.num_eq (z p1) (z p2))
  /\ F32.num_eq (x p1) F32.zero /\ F32.num_eq (z p1) F32.zero.
Proof.
  intros Hrad Hsin Ez1 Ez2 El Hfin Hs1 Hc1 Hs2 Hc2 p1 p2.
  assert (Hs0 : F32.is_zero (sin (radians F32.zero)) = true) by (apply Hsin, Hrad).
  assert (Hm : F32.is_zero (F64.mul (currentLength r1) (sin (radians F32.zero))) = true)
    by (apply mul_zero_r; assumption).
  assert (Zx1 : F32.is_zero (x p1) = true).
  { unfold p1, updatePosition, F64.of_float; cbn [x set_xyz]. rewrite Ez1.
    apply to_float_zero, mul_zero_l; assumption. }
  assert (Zz1 : F32.is_zero (z p1) = true).
  { unfold p1, updatePosition, F64.of_float; cbn [z set_xyz]. rewrite Ez1.
    apply to_float_zero, mul_zero_l; assumption. }
  assert (Zx2 : F32.is_zero (x p2) = true).
  { unfold p2, updatePosition, F64.of_float; cbn [x set_xyz]. rewrite Ez2, El.
    apply to_float_zero, mul_zero_l; assumption. }
  assert (Zz2 : F32.is_zero (z p2) = true).
  { unfold p2, updatePosition, F64.of_float; cbn [z set_xyz]. rewrite Ez2, El.
    apply to_float_zero, mul_zero_l; assumption. }
  repeat split; try (apply num_eq_zeros; (assumption || reflexivity)).
  left. unfold p1, p2, updatePosition; cbn [y set_xyz]. rewrite Ez1, Ez2, El. reflexivity.
Qed.

End DegenerateZenith.

(** C8 as worded fails at zenith 180: in binary32 the radians of 180 is the
    float next to pi, whose sine is about -8.74e-8 and not zero, so [x] is
    not zero (length 0.005, azimuth 0 against azimuth 90). *)
Lemma zenith_180_off_axis :
  ~ degenerate_zenith_claim libm_sin libm_cos glm_radians.
Proof.
  intros H.
  specialize (H (ray_at (F32.of_int 180) (F32.of_int 0) (F32.lit 5 3))
                (ray_at (F32.of_int 180) (F32.of_int 90) (F32.lit 5 3))
                (or_intror eq_refl) eq_refl eq_refl).
  destruct H as (_ & Hx & _).
  vm_compute in Hx. destruct Hx as [E | [E _]]; discriminate.
Qed.

(** ** The statements at concrete runs *)

Lemma position_matches_mapping_witness :
  position_consistent libm_sin libm_cos glm_radians (ray first_frame)
  /\ position_consistent libm_sin libm_cos glm_radians
       (advance libm_sin libm_cos glm_radians (ray first_frame)).
Proof.
  destruct (position_matches_mapping libm_sin libm_cos glm_radians ansi_rand first_frame
              libm_trig_finite
              (reachable_update _ _ _ _ [] World_init (reachable_init _ _ _ _)))
    as (H1 & H2 & _).
  split; [exact H1 | exact H2].
Defined.

Lemma update_moves_first_witness :
  currentLength (advance libm_sin libm_cos glm_radians (ray World_init)) = F32.lit 5 3
  /\ exec (update libm_sin libm_cos glm_radians ansi_rand [sphere_280]) World_init
     = {| ray := advance libm_sin libm_cos glm_radians Ray_new;
          rand_calls := 0;
          trace := [CallUpdatePosition; CallIntersectsSphere sphere_280 false;
                    CallIsOutsideCube false] |}.
Proof.
  destruct (update_moves_first libm_sin libm_cos glm_radians ansi_rand World_init [sphere_280])
    as [(Hl & _) [(_ & _ & H) | [(_ & Hout & _) | (pre & s & post & E & _ & Hs & _)]]].
  - split; [exact Hl | exact H].
  - vm_compute in Hout. discriminate Hout.
  - assert (Es : s = sphere_280).
    { destruct pre as [|p pre]; [injection E as <- _; reflexivity|].
      destruct pre; discriminate E. }
    rewrite Es in Hs. vm_compute in Hs. discriminate Hs.
Defined.

Lemma collision_has_priority_witness :
  hits (advance libm_sin libm_cos glm_radians (ray far_world)) sphere_outer = true
  /\ isOutsideCube (advance libm_sin libm_cos glm_radians (ray far_world)) = true
  /\ exists pre s post new,
       [sphere_280; sphere_outer] = pre ++ s :: post
       /\ Forall (fun s' => hits (advance libm_sin libm_cos glm_radians (ray far_world)) s'
                            = false) pre
       /\ hits (advance libm_sin libm_cos glm_radians (ray far_world)) s = true
       /\ new = CallUpdatePosition :: missed pre ++
                  [CallIntersectsSphere s true;
                   PrintHitSphere (sphere_x s) (sphere_y s) (sphere_z s);
                   CallRand (ansi_rand 0); CallRand (ansi_rand 1)]
       /\ exec (update libm_sin libm_cos glm_radians ansi_rand [sphere_280; sphere_outer])
               far_world
          = {| ray := reset_ray (ansi_rand 0) (ansi_rand 1)
                        (advance libm_sin libm_cos glm_radians (ray far_world));
               rand_calls := 2;
               trace := trace far_world ++ new |}
       /\ printed new = [PrintHitSphere (sphere_x s) (sphere_y s) (sphere_z s)]
       /\ (forall st, In st new -> is_boundary_step st = false).
Proof.
  assert (Hhit : hits (advance libm_sin libm_cos glm_radians (ray far_world)) sphere_outer = true)
    by (vm_compute; reflexivity).
  assert (Hout : isOutsideCube (advance libm_sin libm_cos glm_radians (ray far_world)) = true)
    by (vm_compute; reflexivity).
  split; [exact Hhit|]. split; [exact Hout|].
  apply (collision_has_priority libm_sin libm_cos glm_radians ansi_rand far_world
           [sphere_280; sphere_outer]).
  - exists sphere_outer. split; [right; left; reflexivity | exact Hhit].
  - exact Hout.
Defined.

Lemma first_sphere_in_order_wins_witness :
  trace (exec (update libm_sin libm_cos glm_radians ansi_rand
                 [sphere_280; sphere_origin; sphere_outer; sphere_origin]) World_init)
  = [] ++ CallUpdatePosition ::
      [CallIntersectsSphere sphere_280 false;
       CallIntersectsSphere sphere_origin true;
       PrintHitSphere F32.zero F32.zero F32.zero;
       CallRand (ansi_rand 0); CallRand (ansi_rand 1)].
Proof.
  apply (proj1 (proj2 (proj2
           (first_sphere_in_order_wins libm_sin libm_cos glm_radians ansi_rand World_init
              [sphere_280; sphere_origin; sphere_outer; sphere_origin])))
           [sphere_280] sphere_origin [sphere_outer; sphere_origin]).
  - reflexivity.
  - repeat constructor.
  - vm_compute. reflexivity.
Defined.

Lemma reset_is_exact_witness :
  let r' := ray (exec (update libm_sin libm_cos glm_radians ansi_rand
                         [sphere_280; sphere_origin]) World_init) in
  currentLength r' = F32.zero
  /\ (x r' = F32.zero /\ y r' = F32.zero /\ z r' = F32.zero)
  /\ zenith r' = F32.of_int 98
  /\ whole_degree_below 180 (zenith r')
  /\ azimuth r' = F32.of_int 358
  /\ whole_degree_below 360 (azimuth r')
  /\ speed r' = F32.lit 5 3.
Proof.
  apply (reset_is_exact libm_sin libm_cos glm_radians ansi_rand World_init
           [sphere_280; sphere_origin]).
  left. exists sphere_origin. split; [right; left; reflexivity | vm_compute; reflexivity].
Defined.

Lemma isOutsideCube_strict_witness :
  let r := set_xyz (F32.lit 5 1) (F32.lit (-5) 1) (F32.lit 25 2) Ray_new in
  isOutsideCube r = false
  /\ (isOutsideCube r = true <->
        (F32.ulps (gridHalfSize r) < Z.abs (F32.ulps (x r))
         \/ F32.ulps (gridHalfSize r) < Z.abs (F32.ulps (y r))
         \/ F32.ulps (gridHalfSize r) < Z.abs (F32.ulps (z r)))%Z).
Proof.
  intros r. split.
  - apply (proj1 (proj2 (isOutsideCube_strict r))).
    + left. vm_compute. reflexivity.
    + left. vm_compute. reflexivity.
    + right. vm_compute. reflexivity.
  - apply (proj1 (proj2 (proj2 (isOutsideCube_strict r)))); vm_compute; reflexivity.
Defined.

Lemma camera_polar_clamped_witness :
  let c := camera_after (repeat {| KEY_RIGHT := true; KEY_LEFT := false;
                                   KEY_UP := true; KEY_DOWN := false |} 30) in
  cameraPhi c = F32.of_int 1 /\ cameraTheta c = F32.of_int 105
  /\ F32.le (F32.of_int 1) (cameraPhi c) = true
  /\ F32.le (cameraPhi c) (F32.of_int 179) = true.
Proof.
  intros c. split; [vm_compute; reflexivity|]. split; [vm_compute; reflexivity|].
  apply (camera_polar_clamped c). apply camera_after_reachable.
Defined.

Lemma zenith_zero_on_axis_witness :
  let p1 := updatePosition libm_sin libm_cos glm_radians
              (ray_at (F32.of_int 0) (F32.of_int 0) (F32.lit 5 3)) in
  let p2 := updatePosition libm_sin libm_cos glm_radians
              (ray_at (F32.of_int 0) (F32.of_int 100) (F32.lit 5 3)) in
  (F32.num_eq (x p1) (x p2) /\ F32.num_eq (y p1) (y p2) /\ F32.num_eq (z p1) (z p2))
  /\ F32.num_eq (x p1) F32.zero /\ F32.num_eq (z p1) F32.zero.
Proof.
  apply (zenith_zero_on_axis libm_sin libm_cos glm_radians
           (ray_at (F32.of_int 0) (F32.of_int 0) (F32.lit 5 3))
           (ray_at (F32.of_int 0) (F32.of_int 100) (F32.lit 5 3))).
  - reflexivity.
  - intros [s|s| |s m e] H; try discriminate H; reflexivity.
  - reflexivity.
  - reflexivity.
  - reflexivity.
  - reflexivity.
  - vm_compute. reflexivity.
  - vm_compute. reflexivity.
  - vm_compute. reflexivity.
  - vm_compute. reflexivity.
Defined.

Lemma position_inside_after_tick_witness :
  let r' := ray (exec (update libm_sin libm_cos glm_radians ansi_rand [sphere_280])
                   first_frame) in
  isOutsideCube r' = false
  /\ number_coordinates r'
  /\ inside_cube r'
  /\ inside_cube_exact r'.
Proof.
  apply (position_inside_after_tick libm_sin libm_cos glm_radians ansi_rand first_frame
           [sphere_280]).
  - exact libm_trig_bounded.
  - apply reachable_update, reachable_init.
Defined.

Lemma zenith_below_180_witness :
  F32.lt (zenith (ray first_frame)) (F32.of_int 180) = true.
Proof.
  apply (zenith_below_180 libm_sin libm_cos glm_radians ansi_rand first_frame).
  apply reachable_update, reachable_init.
Defined.

(** With the concrete library and no spheres the ray of the program travels
    for 141 frames along the initial direction; in frame 142 its [y]
    coordinate, about 0.502, exceeds the half size 0.5 for the first time,
    and that frame prints the boundary line and resets the ray with the
    first two draws. *)
Example first_boundary_exit :
  frames 142
  = {| ray := reset_ray 16838 5758 (ray_at (F32.of_int 45) (F32.of_int 45) F32.zero);
       rand_calls := 2;
       trace :=
         concat (repeat [CallUpdatePosition; CallIsOutsideCube false] 141)
         ++ [CallUpdatePosition; CallIsOutsideCube true;
             PrintAtBoundary (S754_finite false 11911815 (-25))
                             (S754_finite false 8422925 (-24))
                             (S754_finite false 11911816 (-25))
                             (S754_finite false 8388608 (-24));
             CallRand 16838; CallRand 5758] |}.
Proof. vm_compute. reflexivity. Qed.

(** * Further facts: the tick *)

Section TickExtras.

Variables sin cos : spec_float -> spec_float.
Variable radians : float -> float.
Variable rand_seq : nat -> N.

Lemma update_rand_calls (w : World) (spheres : list Sphere) :
  rand_calls (exec (update sin cos radians rand_seq spheres) w) =
  if existsb (hits (advance sin cos radians (ray w))) spheres
     || isOutsideCube (advance sin cos radians (ray w))
  then S (S (rand_calls w)) else rand_calls w.
Proof.
  destruct (first_hit_split (advance sin cos radians (ray w)) spheres)
    as [Hall | (pre & s & post & -> & Hpre & Hs)].
  - rewrite (update_miss sin cos radians rand_seq w spheres Hall).
    rewrite miss_existsb by exact Hall. simpl.
    destruct (isOutsideCube (advance sin cos radians (ray w))); reflexivity.
  - rewrite (update_hit sin cos radians rand_seq w pre post s Hpre Hs).
    rewrite existsb_app. simpl. rewrite Hs, orb_true_r. reflexivity.
Qed.

Lemma printed_app (t1 t2 : list Step) : printed (t1 ++ t2) = printed t1 ++ printed t2.
Proof. apply filter_app. Qed.

Lemma find_miss (r : Ray) (spheres : list Sphere) :
  Forall (fun s => hits r s = false) spheres -> find (hits r) spheres = None.
Proof.
  induction 1 as [|s l Hs _ IH]; [reflexivity|]. simpl. rewrite Hs. exact IH.
Qed.

Lemma find_first (r : Ray) (pre post : list Sphere) (s : Sphere) :
  Forall (fun s' => hits r s' = false) pre -> hits r s = true ->
  find (hits r) (pre ++ s :: post) = Some s.
Proof.
  induction 1 as [|s' l Hs' _ IH]; intros Hs; simpl.
  - rewrite Hs. reflexivity.
  - rewrite Hs'. exact (IH Hs).
Qed.

Lemma update_printed (w : World) (spheres : list Sphere) :
  printed (trace (exec (update sin cos radians rand_seq spheres) w)) =
  printed (trace w) ++ tick_print (advance sin cos radians (ray w)) spheres.
Proof.
  unfold tick_print.
  change (fun s => intersectsSphere (advance sin cos radians (ray w)) (sphere_x s)
                     (sphere_y s) (sphere_z s) (sphere_radius s))
    with (hits (advance sin cos radians (ray w))).
  destruct (first_hit_split (advance sin cos radians (ray w)) spheres)
    as [Hall | (pre & s & post & -> & Hpre & Hs)].
  - rewrite (update_miss sin cos radians rand_seq w spheres Hall).
    rewrite find_miss by exact Hall.
    destruct (isOutsideCube (advance sin cos radians (ray w))); simpl trace;
      rewrite printed_app; f_equal;
      change (CallUpdatePosition :: missed spheres ++ ?l)
        with ([CallUpdatePosition] ++ missed spheres ++ l);
      rewrite !printed_app, printed_missed; reflexivity.
  - rewrite (update_hit sin cos radians rand_seq w pre post s Hpre Hs).
    rewrite find_first by assumption. simpl trace.
    rewrite printed_app. f_equal.
    change (CallUpdatePosition :: missed pre ++ ?l)
      with ([CallUpdatePosition] ++ missed pre ++ l).
    rewrite !printed_app, printed_missed. reflexivity.
Qed.

Lemma tick_print_length (r1 : Ray) (spheres : list Sphere) :
  length (tick_print r1 spheres) =
  if existsb (hits r1) spheres || isOutsideCube r1 then 1 else 0.
Proof.
  unfold tick_print.
  change (fun s => intersectsSphere r1 (sphere_x s) (sphere_y s) (sphere_z s)
                     (sphere_radius s)) with (hits r1).
  destruct (first_hit_split r1 spheres) as [Hall | (pre & s & post & -> & Hpre & Hs)].
  - rewrite find_miss, miss_existsb by exact Hall. simpl.
    destruct (isOutsideCube r1); reflexivity.
  - rewrite find_first by assumption.
    rewrite existsb_app. simpl. rewrite Hs, orb_true_r. reflexivity.
Qed.

(** X1: every reset draws exactly two random numbers and prints exactly one
    line, and nothing else draws or prints: in every state the program
    reaches, the number of [rand] calls made is twice the number of lines
    printed, and a tick makes two calls when it prints and none when it
    does not. *)
Theorem two_draws_per_printed_line (w : World) (spheres : list Sphere) :
  reachable sin cos radians rand_seq w ->
  rand_calls w = 2 * length (printed (trace w))
  /\ (let w' := exec (update sin cos radians rand_seq spheres) w in
      exists line,
        printed (trace w') = printed (trace w) ++ line
        /\ length line <= 1
        /\ rand_calls w' = rand_calls w + 2 * length line).
Proof.
  intros Hw. split.
  - induction Hw as [|spheres' w Hw IH]; [reflexivity|].
    rewrite update_rand_calls, update_printed, length_app, tick_print_length, IH.
    destruct (existsb _ spheres' || isOutsideCube _); simpl; lia.
  - intros w'. exists (tick_print (advance sin cos radians (ray w)) spheres).
    unfold w'. rewrite update_rand_calls, update_printed, tick_print_length.
    destruct (existsb _ spheres || isOutsideCube _); simpl; repeat split; lia.
Qed.

(** X2: the direction of the ray is fixed by the random sequence alone,
    whatever the spheres are: before the first reset it is (45, 45), and
    when [n + 2] draws have been made the zenith is draw [n] modulo 180 and
    the azimuth is draw [n + 1] modulo 360; the number of draws is never
    odd. *)
Theorem direction_from_draws (w : World) :
  reachable sin cos radians rand_seq w ->
  match rand_calls w with
  | O => zenith (ray w) = F32.of_int 45 /\ azimuth (ray w) = F32.of_int 45
  | S O => False
  | S (S n) =>
      Nat.Even n
      /\ zenith (ray w) = F32.of_int (Z.of_N (rand_seq n mod 180))
      /\ azimuth (ray w) = F32.of_int (Z.of_N (rand_seq (S n) mod 360))
  end.
Proof.
  induction 1 as [|spheres w Hw IH].
  - split; reflexivity.
  - rewrite update_rand_calls, update_ray.
    destruct (existsb _ spheres || isOutsideCube _).
    + split; [|split; reflexivity].
      destruct (rand_calls w) as [|[|n]].
      * exists 0. reflexivity.
      * contradiction.
      * destruct IH as [[k Hk] _]. exists (S k). lia.
    + exact IH.
Qed.

Lemma existsb_permutation {A : Type} (f : A -> bool) (l1 l2 : list A) :
  Permutation l1 l2 -> existsb f l1 = existsb f l2.
Proof.
  induction 1 as [|a l l' _ IH|a b l|l l' l'' _ IH1 _ IH2]; simpl.
  - reflexivity.
  - rewrite IH. reflexivity.
  - destruct (f a), (f b); reflexivity.
  - congruence.
Qed.

Lemma existsb_filter {A : Type} (f : A -> bool) (l : list A) :
  existsb f (filter f l) = existsb f l.
Proof.
  induction l as [|a l IH]; simpl; [reflexivity|].
  destruct (f a) eqn:E; simpl; rewrite ?E, IH; reflexivity.
Qed.

(** X3: the state a tick leaves does not depend on the order of the
    spheres, nor on the spheres that do not contain the moved ray: lists
    that are permutations of each other give the same ray and the same
    number of draws and of printed lines, and so does the list with the
    missed spheres removed.  (Which sphere the printed line names does
    depend on the order.) *)
Theorem sphere_order_is_irrelevant (w : World) (l1 l2 : list Sphere) :
  Permutation l1 l2 ->
  let run l := exec (update sin cos radians rand_seq l) w in
  ray (run l1) = ray (run l2)
  /\ rand_calls (run l1) = rand_calls (run l2)
  /\ length (printed (trace (run l1))) = length (printed (trace (run l2)))
  /\ ray (run (filter (hits (advance sin cos radians (ray w))) l1)) = ray (run l1).
Proof.
  intros Hperm run. unfold run.
  rewrite !update_ray, !update_rand_calls, !update_printed, !length_app,
    !tick_print_length.
  rewrite existsb_filter.
  rewrite (existsb_permutation (hits (advance sin cos radians (ray w))) l1 l2 Hperm).
  repeat split; reflexivity.
Qed.

Lemma find_app_hits (r : Ray) (l1 l2 : list Sphere) :
  find (hits r) (l1 ++ l2) =
  match find (hits r) l1 with Some s => Some s | None => find (hits r) l2 end.
Proof.
  induction l1 as [|a l1 IH]; simpl; [reflexivity|].
  destruct (hits r a); [reflexivity | exact IH].
Qed.

Lemma find_none_In (r : Ray) (l : list Sphere) (s : Sphere) :
  find (hits r) l = None -> In s l -> hits r s = false.
Proof.
  intros Hf Hin. exact (find_none (hits r) l Hf s Hin).
Qed.

(** X4: an entry of the sphere list that repeats an earlier entry is
    dead: with or without it a tick leaves the same ray, makes the same
    draws and prints the same lines.  (The list of [main] has such
    entries, for instance those of lines 281 and 297.) *)
Theorem repeated_sphere_is_dead (w : World) (pre post : list Sphere) (s : Sphere) :
  In s pre ->
  let w1 := exec (update sin cos radians rand_seq (pre ++ s :: post)) w in
  let w2 := exec (update sin cos radians rand_seq (pre ++ post)) w in
  ray w1 = ray w2
  /\ rand_calls w1 = rand_calls w2
  /\ printed (trace w1) = printed (trace w2).
Proof.
  intros Hin w1 w2. unfold w1, w2.
  set (r1 := advance sin cos radians (ray w)).
  assert (Hfind : find (hits r1) (pre ++ s :: post) = find (hits r1) (pre ++ post)).
  { rewrite !find_app_hits. destruct (find (hits r1) pre) eqn:Hpre; [reflexivity|].
    simpl. rewrite (find_none_In r1 pre s Hpre Hin). reflexivity. }
  assert (Hex : existsb (hits r1) (pre ++ s :: post) = existsb (hits r1) (pre ++ post)).
  { rewrite !existsb_app. simpl.
    destruct (hits r1 s) eqn:Hs; [|reflexivity].
    assert (E : existsb (hits r1) pre = true)
      by (apply existsb_exists; exists s; split; assumption).
    rewrite E. reflexivity. }
  rewrite !update_ray, !update_rand_calls, !update_printed.
  fold r1. rewrite Hex. repeat split; try reflexivity.
  f_equal. unfold tick_print.
  change (fun s0 => intersectsSphere r1 (sphere_x s0) (sphere_y s0) (sphere_z s0)
                      (sphere_radius s0)) with (hits r1).
  rewrite Hfind. reflexivity.
Qed.

Lemma nan_position_hits_nothing (r : Ray) (spheres : list Sphere) :
  x r = S754_nan -> Forall (fun s => hits r s = false) spheres.
Proof.
  intros Hx. apply Forall_forall. intros s _.
  unfold hits, intersectsSphere. rewrite Hx. reflexivity.
Qed.

Lemma nan_position_not_outside (r : Ray) :
  x r = S754_nan -> y r = S754_nan -> z r = S754_nan -> isOutsideCube r = false.
Proof.
  intros Hx Hy Hz. unfold isOutsideCube. rewrite Hx, Hy, Hz.
  unfold F32.gt, F32.fabs, SFabs.
  destruct (gridHalfSize r); reflexivity.
Qed.

Lemma nan_tick (w : World) (spheres : list Sphere) :
  currentLength (ray w) = S754_nan ->
  let w' := exec (update sin cos radians rand_seq spheres) w in
  currentLength (ray w') = S754_nan
  /\ (x (ray w') = S754_nan /\ y (ray w') = S754_nan /\ z (ray w') = S754_nan)
  /\ zenith (ray w') = zenith (ray w) /\ azimuth (ray w') = azimuth (ray w)
  /\ rand_calls w' = rand_calls w
  /\ printed (trace w') = printed (trace w).
Proof.
  intros Hnan w'.
  assert (Hl : currentLength (advance sin cos radians (ray w)) = S754_nan).
  { unfold advance, updatePosition; simpl. rewrite Hnan. reflexivity. }
  assert (Hx : x (advance sin cos radians (ray w)) = S754_nan).
  { unfold advance, updatePosition; simpl. rewrite Hnan. reflexivity. }
  assert (Hy : y (advance sin cos radians (ray w)) = S754_nan).
  { unfold advance, updatePosition; simpl. rewrite Hnan. reflexivity. }
  assert (Hz : z (advance sin cos radians (ray w)) = S754_nan).
  { unfold advance, updatePosition; simpl. rewrite Hnan. reflexivity. }
  unfold w'.
  rewrite (update_miss sin cos radians rand_seq w spheres
             (nan_position_hits_nothing _ spheres Hx)).
  rewrite (nan_position_not_outside _ Hx Hy Hz). simpl ray. simpl rand_calls. simpl trace.
  repeat split; try assumption.
  change (CallUpdatePosition :: missed spheres ++ [CallIsOutsideCube false])
    with ([CallUpdatePosition] ++ missed spheres ++ [CallIsOutsideCube false]).
  rewrite !printed_app, printed_missed. simpl. apply app_nil_r.
Qed.

(** X5: a length that is not a number is never recovered from: once
    [currentLength] is NaN, every later frame leaves it NaN, the position is
    NaN, no sphere test and no boundary test succeeds, and so the ray is
    never reset again: no draw is made and no line is printed, whatever the
    spheres are. *)
Theorem nan_length_is_absorbing (w : World) (spheres : list Sphere) (n : nat) :
  currentLength (ray w) = S754_nan ->
  let w' := ticks sin cos radians rand_seq spheres n w in
  currentLength (ray w') = S754_nan
  /\ zenith (ray w') = zenith (ray w) /\ azimuth (ray w') = azimuth (ray w)
  /\ rand_calls w' = rand_calls w
  /\ printed (trace w') = printed (trace w)
  /\ (0 < n -> x (ray w') = S754_nan /\ y (ray w') = S754_nan /\ z (ray w') = S754_nan).
Proof.
  intros Hnan. induction n as [|n IH]; simpl.
  - repeat split; try assumption; try reflexivity; lia.
  - destruct IH as (Hl & Hz & Ha & Hr & Hp & _).
    destruct (nan_tick (ticks sin cos radians rand_seq spheres n w) spheres Hl)
      as (Hl' & Hxyz & Hz' & Ha' & Hr' & Hp').
    repeat split; try congruence; apply Hxyz.
Qed.

(** X6: beside the zenith, the other fields keep to their ranges in every
    state the program reaches: the azimuth is a whole number of degrees in
    [0, 360), the speed is the constant 0.005f and the half size of the ray
    is the constant 0.5f, the same value as the [halfSize] with which [main]
    draws the grid. *)
Theorem azimuth_and_constants (w : World) :
  reachable sin cos radians rand_seq w ->
  whole_degree_below 360 (azimuth (ray w))
  /\ F32.le F32.zero (azimuth (ray w)) = true
  /\ F32.lt (azimuth (ray w)) (F32.of_int 360) = true
  /\ speed (ray w) = F32.lit 5 3
  /\ gridHalfSize (ray w) = halfSize
  /\ halfSize = S754_finite false 8388608 (-24).
Proof.
  intros Hw.
  destruct (reachable_invariant sin cos radians rand_seq w Hw) as (_ & Ha & Hs & Hg).
  split; [exact Ha|].
  destruct Ha as (k & Hk & ->).
  assert (H : F32.le F32.zero (F32.of_int k) && F32.lt (F32.of_int k) (F32.of_int 360) = true).
  { apply (whole_degrees_check
             (fun k => F32.le F32.zero (F32.of_int k)
                       && F32.lt (F32.of_int k) (F32.of_int 360)) 360);
      [vm_compute; reflexivity | exact Hk]. }
  apply andb_prop in H as [Hle Hlt].
  repeat split; try assumption.
Qed.

Lemma length_in_range_facts (len : float) :
  length_in_range len = true ->
  F32.is_finite len = true /\ F32.le F32.zero len = true
  /\ (0 <= F32.ulps len <= 2 ^ 167)%Z.
Proof.
  destruct len as [s|s| |s m e]; try discriminate.
  - intros _. repeat split; simpl; lia.
  - destruct s; [discriminate|]. cbn [length_in_range]. intros H.
    apply andb_prop in H as [He Hv]. apply Z.leb_le in He, Hv.
    repeat split; [| exact Hv].
    cbn [F32.ulps cond_Zopp].
    apply Z.mul_nonneg_nonneg; [lia | apply Z.pow_nonneg; lia].
Qed.

(** X17: the length of the ray is always a number: in every state the
    program reaches, [currentLength] is a zero or a positive finite float
    of at most [2^18] (the additions of the speed 0.005f round back to the
    same float before they can pass it), whatever the library returns and
    whatever the spheres are.  So it is never NaN or infinite, and the state
    of X5 is not one the program reaches. *)
Theorem length_stays_a_number (w : World) :
  reachable sin cos radians rand_seq w ->
  F32.is_finite (currentLength (ray w)) = true
  /\ F32.is_nan (currentLength (ray w)) = false
  /\ F32.le F32.zero (currentLength (ray w)) = true
  /\ (0 <= F32.ulps (currentLength (ray w)) <= 2 ^ 167)%Z
  /\ F32.ulps (F32.of_int 262144) = (2 ^ 167)%Z.
Proof.
  intros Hw.
  destruct (length_in_range_facts _ (reachable_length sin cos radians rand_seq w Hw))
    as (Hfin & Hle & Hu).
  split; [exact Hfin|]. split.
  - destruct (currentLength (ray w)); try discriminate; reflexivity.
  - split; [exact Hle|]. split; [exact Hu|]. vm_compute. reflexivity.
Qed.

End TickExtras.

(** * Further facts: the sphere test and the camera *)

Lemma sub_nan_r (a : float) : F32.sub a S754_nan = S754_nan.
Proof. destruct a; reflexivity. Qed.

Lemma add_nan_r (a : float) : F32.add a S754_nan = S754_nan.
Proof. destruct a; reflexivity. Qed.

Lemma le_nan_r (a : float) : F32.le a S754_nan = false.
Proof. destruct a; reflexivity. Qed.

Lemma mul_opp_opp (a : float) : F32.mul (SFopp a) (SFopp a) = F32.mul a a.
Proof. destruct a as [s|s| |s m e]; try reflexivity; destruct s; reflexivity. Qed.

(** X7: the sphere test never succeeds on something that is not a number:
    a sphere with a NaN centre coordinate or a NaN radius is never hit, and
    a ray with a NaN coordinate hits no sphere.  The sign of the radius does
    not matter: a sphere of radius [-r] is hit exactly when the sphere of
    radius [r] is. *)
Theorem sphere_test_edges (r : Ray) (sphereX sphereY sphereZ sphereRadius : float) :
  (sphereX = S754_nan \/ sphereY = S754_nan \/ sphereZ = S754_nan
   \/ sphereRadius = S754_nan
   \/ x r = S754_nan \/ y r = S754_nan \/ z r = S754_nan ->
   intersectsSphere r sphereX sphereY sphereZ sphereRadius = false)
  /\ intersectsSphere r sphereX sphereY sphereZ (SFopp sphereRadius)
     = intersectsSphere r sphereX sphereY sphereZ sphereRadius.
Proof.
  split.
  - unfold intersectsSphere.
    intros [-> | [-> | [-> | [-> | [-> | [-> | ->]]]]]];
      rewrite ?sub_nan_r; try reflexivity.
    + change (F32.mul S754_nan S754_nan) with S754_nan. rewrite add_nan_r. reflexivity.
    + change (F32.mul S754_nan S754_nan) with S754_nan. rewrite add_nan_r. reflexivity.
    + change (F32.mul S754_nan S754_nan) with S754_nan. apply le_nan_r.
    + change (F32.sub S754_nan sphereY) with S754_nan.
      change (F32.mul S754_nan S754_nan) with S754_nan. rewrite add_nan_r. reflexivity.
    + change (F32.sub S754_nan sphereZ) with S754_nan.
      change (F32.mul S754_nan S754_nan) with S754_nan. rewrite add_nan_r. reflexivity.
  - unfold intersectsSphere. rewrite mul_opp_opp. reflexivity.
Qed.

Lemma up_and_down_checked :
  forallb (fun a =>
             F32.same (F32.min (F32.of_int 179)
                         (F32.add (F32.max (F32.of_int 1) (F32.sub a rotationSpeed))
                                  rotationSpeed))
                      (if F32.same a (F32.of_int 1) then F32.of_int 3 else a))
          odd_degrees = true.
Proof. vm_compute. reflexivity. Qed.

(** X8: with UP and DOWN both held in a frame, the polar angle is left as
    it is, except at the lower clamp: from 1 the frame takes it to 3 (UP is
    clamped at 1 first, DOWN then adds 2).  At the upper clamp 179 it stays.
    The azimuth is not touched. *)
Theorem up_and_down_held (c : Camera) :
  camera_reachable c ->
  cameraPhi (handle_keys up_and_down c)
  = (if F32.same (cameraPhi c) (F32.of_int 1) then F32.of_int 3 else cameraPhi c)
  /\ cameraTheta (handle_keys up_and_down c) = cameraTheta c
  /\ cameraPhi (handle_keys up_and_down
                  {| cameraTheta := cameraTheta c; cameraPhi := F32.of_int 1 |})
     = F32.of_int 3
  /\ cameraPhi (handle_keys up_and_down
                  {| cameraTheta := cameraTheta c; cameraPhi := F32.of_int 179 |})
     = F32.of_int 179.
Proof.
  intros Hc. pose proof up_and_down_checked as H.
  rewrite forallb_forall in H. specialize (H _ (camera_phi_odd c Hc)).
  apply same_eq in H.
  split; [exact H|]. split; [reflexivity|]. split; vm_compute; reflexivity.
Qed.

(** * Further facts: the grid and the sphere meshes *)

Lemma fold_left_ext {A B : Type} (f g : A -> B -> A) (l : list B) (v : A) :
  (forall v i, f v i = g v i) -> fold_left f l v = fold_left g l v.
Proof.
  intros H. revert v. induction l as [|i l IH]; intros v; simpl; [reflexivity|].
  rewrite H. apply IH.
Qed.

Lemma fold_left_append {A B : Type} (g : B -> list A) (l : list B) (v : list A) :
  fold_left (fun v i => v ++ g i) l v = v ++ flat_map g l.
Proof.
  revert v. induction l as [|i l IH]; intros v; simpl.
  - symmetry. apply app_nil_r.
  - rewrite IH. symmetry. apply app_assoc.
Qed.

Lemma flat_map_length_const {A B : Type} (g : B -> list A) (k : nat) (l : list B) :
  (forall i, length (g i) = k) -> length (flat_map g l) = k * length l.
Proof.
  intros H. induction l as [|i l IH]; simpl; [lia|].
  rewrite length_app, H, IH. lia.
Qed.

Lemma points_length (n : nat) (vertices : list float) :
  length vertices = 3 * n -> length (points vertices) = n.
Proof.
  revert vertices. induction n as [|n IH]; intros vertices H.
  - destruct vertices; [reflexivity | discriminate].
  - destruct vertices as [|a [|b [|c rest]]]; simpl in H; try lia.
    simpl. f_equal. apply IH. lia.
Qed.

Lemma upto_GRID_SIZE : upto GRID_SIZE = [0; 1; 2; 3; 4; 5]%Z.
Proof. reflexivity. Qed.

Lemma addGridLines_x (vertices : list float) (x y z : float) :
  addGridLines vertices x y z "x" =
  vertices ++
  flat_map (fun i => [x; F32.add y (F32.mul (F32.of_int i) CELL_SIZE); z;
                      F32.add x (F32.mul (F32.of_int GRID_SIZE) CELL_SIZE);
                      F32.add y (F32.mul (F32.of_int i) CELL_SIZE); z])
           (upto GRID_SIZE).
Proof.
  unfold addGridLines. rewrite <- fold_left_append.
  apply fold_left_ext. intros v i. simpl. rewrite <- app_assoc. reflexivity.
Qed.

Lemma addGridLines_y (vertices : list float) (x y z : float) :
  addGridLines vertices x y z "y" =
  vertices ++
  flat_map (fun i => [F32.add x (F32.mul (F32.of_int i) CELL_SIZE); y; z;
                      F32.add x (F32.mul (F32.of_int i) CELL_SIZE);
                      F32.add y (F32.mul (F32.of_int GRID_SIZE) CELL_SIZE); z])
           (upto GRID_SIZE).
Proof.
  unfold addGridLines. rewrite <- fold_left_append.
  apply fold_left_ext. intros v i. simpl. rewrite <- app_assoc. reflexivity.
Qed.

Lemma addGridLines_other (vertices : list float) (x y z : float) (axis : ascii) :
  axis <> "x"%char -> axis <> "y"%char -> addGridLines vertices x y z axis = vertices.
Proof.
  intros Hx Hy. unfold addGridLines.
  apply Ascii.eqb_neq in Hx. apply Ascii.eqb_neq in Hy. rewrite Hx, Hy.
  generalize (upto GRID_SIZE). intros l. induction l as [|i l IH]; simpl; [reflexivity | exact IH].
Qed.

(** X9: [addGridLines] keeps what the vector holds and appends, for the
    axis ['x'] or ['y'], the two end points of [GRID_SIZE + 1] lines, 36
    numbers in all; for any other axis character it appends nothing and the
    vector is left as it was. *)
Theorem addGridLines_appends (vertices : list float) (x y z : float) (axis : ascii) :
  (exists lines, addGridLines vertices x y z axis = vertices ++ lines
                 /\ length lines
                    = if (Ascii.eqb axis "x" || Ascii.eqb axis "y")%bool then 36 else 0)
  /\ (axis <> "x"%char -> axis <> "y"%char ->
      addGridLines vertices x y z axis = vertices).
Proof.
  split; [|apply addGridLines_other].
  destruct (Ascii.eqb axis "x") eqn:Ex; [|destruct (Ascii.eqb axis "y") eqn:Ey].
  - apply Ascii.eqb_eq in Ex. subst axis. rewrite addGridLines_x.
    eexists. split; [reflexivity|]. reflexivity.
  - apply Ascii.eqb_eq in Ey. subst axis. rewrite addGridLines_y.
    eexists. split; [reflexivity|]. reflexivity.
  - apply Ascii.eqb_neq in Ex. apply Ascii.eqb_neq in Ey.
    rewrite addGridLines_other by assumption.
    exists []. split; [symmetry; apply app_nil_r | reflexivity].
Qed.

(** X10: the lines [addGridLines] produces are parallel to the axis it is
    given, whatever the start point: for ['x'] the two end points of each
    of the six lines have the same [y] and [z], for ['y'] the same [x] and
    [z]; and all six lines start at the given [x] (resp. [y]). *)
Theorem grid_lines_are_parallel (x y z : float) :
  let lines_x := segments_of (points (addGridLines [] x y z "x")) in
  let lines_y := segments_of (points (addGridLines [] x y z "y")) in
  length lines_x = 6 /\ Forall along_x lines_x
  /\ Forall (fun seg => fst (fst (fst seg)) = x) lines_x
  /\ length lines_y = 6 /\ Forall along_y lines_y
  /\ Forall (fun seg => snd (fst (fst seg)) = y) lines_y.
Proof.
  intros lines_x lines_y. unfold lines_x, lines_y.
  rewrite addGridLines_x, addGridLines_y, upto_GRID_SIZE.
  cbn [flat_map app points segments_of length].
  repeat split; repeat constructor.
Qed.

Lemma forallb_Forall_true {A : Type} (f : A -> bool) (l : list A) :
  forallb f l = true -> Forall (fun a => f a = true) l.
Proof. intros H. apply Forall_forall. apply forallb_forall. exact H. Qed.

Lemma point_mem_In (p : float * float * float) (l : list (float * float * float)) :
  existsb (fun q => F32.same (fst (fst q)) (fst (fst p))
                    && F32.same (snd (fst q)) (snd (fst p))
                    && F32.same (snd q) (snd p)) l = true ->
  In p l.
Proof.
  intros H. apply existsb_exists in H as (q & Hin & Hq).
  apply andb_prop in Hq as [Hq Hz]. apply andb_prop in Hq as [Hx Hy].
  apply same_eq in Hx, Hy, Hz.
  destruct p as [[px py] pz], q as [[qx qy] qz]. cbn [fst snd] in Hx, Hy, Hz.
  subst. exact Hin.
Qed.

(** X11: the grid [main] draws is the cube of the boundary test: its 360
    numbers are the end points of 60 lines, no grid point is outside the
    cube for [isOutsideCube] with the half size of the ray, and the eight
    corners of the cube are grid points. *)
Theorem grid_is_the_boundary_cube :
  length grid_vertices = 360
  /\ length (segments_of (points grid_vertices)) = 60
  /\ Forall (fun p => isOutsideCube (set_xyz (fst (fst p)) (snd (fst p)) (snd p) Ray_new)
                      = false)
            (points grid_vertices)
  /\ forall sx sy sz : bool, In (corner sx sy sz) (points grid_vertices).
Proof.
  split; [vm_compute; reflexivity|]. split; [vm_compute; reflexivity|]. split.
  - assert (H : Forall (fun p => negb (isOutsideCube
                                         (set_xyz (fst (fst p)) (snd (fst p)) (snd p) Ray_new))
                                 = true) (points grid_vertices)).
    { apply forallb_Forall_true. vm_compute. reflexivity. }
    apply Forall_impl with (2 := H). intros p Hp. apply negb_true_iff. exact Hp.
  - intros sx sy sz. apply point_mem_In.
    destruct sx, sy, sz; vm_compute; reflexivity.
Qed.

Section MeshFacts.

Variables sin cos : spec_float -> spec_float.

Lemma generateVertices_rings (s : Sphere) :
  generateVertices sin cos s =
  flat_map (fun i =>
              flat_map (fun j => mesh_vertex sin cos s (mesh_phi 16 i) (mesh_theta 16 j))
                       (upto 16))
           (upto 16).
Proof.
  unfold generateVertices.
  rewrite (fold_left_ext _
             (fun vertices i =>
                vertices ++
                flat_map (fun j => mesh_vertex sin cos s (mesh_phi 16 i) (mesh_theta 16 j))
                         (upto 16))).
  - rewrite fold_left_append. reflexivity.
  - intros v i. apply fold_left_append.
Qed.

(** X12: the mesh of every sphere has 867 numbers, the 289 vertices of 17
    rings of 17 vertices each, whatever the centre and the radius are (also
    when they are not numbers) and whatever the library returns: the size of
    the vertex buffer and the count given to [glDrawArrays] do not depend on
    the sphere. *)
Theorem sphere_mesh_size (s : Sphere) :
  length (generateVertices sin cos s) = 867
  /\ length (points (generateVertices sin cos s)) = 289.
Proof.
  assert (H : length (generateVertices sin cos s) = 867).
  { rewrite generateVertices_rings.
    rewrite (flat_map_length_const _ 51).
    - reflexivity.
    - intros i. rewrite (flat_map_length_const _ 3); reflexivity. }
  split; [exact H|]. apply points_length. rewrite H. reflexivity.
Qed.

(** X13: the first ring of every sphere mesh is a single point: when the
    sine of zero is a zero, the radius is finite and the sines and cosines
    of the segment angles are finite, the first 17 vertices of the mesh all
    have the [x] and [y] of the centre (as numbers: the [float] of the
    centre coordinate, which is the coordinate itself when that is a
    [float]) and one and the same [z], the [float] of the centre's plus
    radius times the cosine of zero. *)
Theorem first_ring_is_a_point (s : Sphere) :
  F32.is_zero (sin F32.zero) = true ->
  F32.is_finite (sphere_radius s) = true ->
  trig_finite_on_mesh sin cos ->
  exists rest,
    generateVertices sin cos s
    = flat_map (fun j => mesh_vertex sin cos s F32.zero (mesh_theta 16 j)) (upto 16) ++ rest
    /\ length (flat_map (fun j => mesh_vertex sin cos s F32.zero (mesh_theta 16 j))
                        (upto 16)) = 51
    /\ forall j, In j (upto 16) ->
         exists vx vy,
           mesh_vertex sin cos s F32.zero (mesh_theta 16 j)
           = [vx; vy;
              F64.to_float
                (F64.add (F64.of_float (sphere_z s))
                   (F64.mul (F64.of_float (sphere_radius s)) (cos F32.zero)))]
           /\ F32.num_eq vx (F64.to_float (F64.of_float (sphere_x s)))
           /\ F32.num_eq vy (F64.to_float (F64.of_float (sphere_y s)))
           /\ (valid_binary F32.prec F32.emax (sphere_x s) = true ->
               F32.num_eq vx (sphere_x s))
           /\ (valid_binary F32.prec F32.emax (sphere_y s) = true ->
               F32.num_eq vy (sphere_y s)).
Proof.
  intros Hsin Hrad Htrig.
  rewrite generateVertices_rings.
  change (upto 16) with (0%Z :: whole_range 1 16) at 1.
  cbn [flat_map]. change (mesh_phi 16 0) with F32.zero.
  eexists. split; [reflexivity|]. split.
  - rewrite (flat_map_length_const _ 3); reflexivity.
  - intros j Hj. destruct (Htrig j Hj) as [Hs Hc].
    eexists. eexists. split; [reflexivity|].
    assert (Hm : F32.is_zero (F64.mul (sphere_radius s) (sin F32.zero)) = true)
      by (apply mul_zero_r; assumption).
    unfold F64.of_float.
    assert (Hx : F32.num_eq
                   (F64.to_float
                      (F64.add (sphere_x s)
                         (F64.mul (F64.mul (sphere_radius s) (sin F32.zero))
                                  (cos (mesh_theta 16 j)))))
                   (F64.to_float (sphere_x s)))
      by (apply to_float_add_zero, mul_zero_l; assumption).
    assert (Hy : F32.num_eq
                   (F64.to_float
                      (F64.add (sphere_y s)
                         (F64.mul (F64.mul (sphere_radius s) (sin F32.zero))
                                  (sin (mesh_theta 16 j)))))
                   (F64.to_float (sphere_y s)))
      by (apply to_float_add_zero, mul_zero_l; assumption).
    split; [exact Hx|]. split; [exact Hy|]. split.
    + intros Hv. rewrite (to_float_exact _ Hv) in Hx. exact Hx.
    + intros Hv. rewrite (to_float_exact _ Hv) in Hy. exact Hy.
Qed.

End MeshFacts.

(** * Further facts: edges of the two tests and held keys *)

Lemma sub_self (a : float) : F32.is_finite a = true -> F32.sub a a = F32.zero.
Proof.
  destruct a as [s|s| |s m e]; try discriminate; intros _.
  - destruct s; reflexivity.
  - unfold F32.sub, SFsub. rewrite Z.min_id.
    unfold shl_align. rewrite Z.sub_diag. cbn [fst]. reflexivity.
Qed.

(** X14: the sphere test is inclusive: a sphere of radius zero whose centre
    is exactly the position of the ray is hit, when the coordinates of the
    position are finite (the code compares with [<=], where its comment says
    "less than"). *)
Theorem point_sphere_is_hit (r : Ray) :
  F32.is_finite (x r) = true -> F32.is_finite (y r) = true -> F32.is_finite (z r) = true ->
  intersectsSphere r (x r) (y r) (z r) F32.zero = true
  /\ intersectsSphere r (x r) (y r) (z r) (S754_zero true) = true.
Proof.
  intros Hx Hy Hz. unfold intersectsSphere.
  rewrite (sub_self _ Hx), (sub_self _ Hy), (sub_self _ Hz).
  split; reflexivity.
Qed.

Lemma fabs_opp (a : float) : F32.fabs (SFopp a) = F32.fabs a.
Proof. destruct a; reflexivity. Qed.

Lemma gt_nan_l (h : float) : F32.gt S754_nan h = false.
Proof. destruct h; reflexivity. Qed.

Lemma gt_inf_l (s : bool) (h : float) :
  F32.is_finite h = true -> F32.gt (F32.fabs (S754_infinity s)) h = true.
Proof. destruct h; try discriminate; intros _; reflexivity. Qed.

(** X15: the boundary test looks at magnitudes only: changing the sign of
    any coordinate does not change its answer; a NaN coordinate never makes
    a position outside (the answer is that of the other two coordinates);
    an infinite coordinate makes it outside whenever the half size is
    finite. *)
Theorem boundary_test_edges (r : Ray) (vx vy vz : float) :
  let at_pos a b c := isOutsideCube (set_xyz a b c r) in
  at_pos (SFopp vx) vy vz = at_pos vx vy vz
  /\ at_pos vx (SFopp vy) vz = at_pos vx vy vz
  /\ at_pos vx vy (SFopp vz) = at_pos vx vy vz
  /\ at_pos S754_nan vy vz
     = (F32.gt (F32.fabs vy) (gridHalfSize r) || F32.gt (F32.fabs vz) (gridHalfSize r))
  /\ at_pos S754_nan S754_nan S754_nan = false
  /\ (F32.is_finite (gridHalfSize r) = true ->
      forall s, at_pos (S754_infinity s) vy vz = true
                /\ at_pos vx (S754_infinity s) vz = true
                /\ at_pos vx vy (S754_infinity s) = true).
Proof.
  intros at_pos. unfold at_pos, isOutsideCube; cbn [x y z gridHalfSize set_xyz].
  rewrite !fabs_opp.
  change (F32.fabs S754_nan) with S754_nan. rewrite !gt_nan_l.
  repeat split; try reflexivity;
    rewrite (gt_inf_l _ _ H); rewrite ?orb_true_r; reflexivity.
Qed.

Lemma press_up_checked :
  forallb (fun k => F32.same (F32.max (F32.of_int 1) (F32.sub (F32.of_int k) rotationSpeed))
                             (F32.of_int (Z.max 1 (k - 2)))
                    && F32.same (F32.min (F32.of_int 179)
                                   (F32.add (F32.of_int k) rotationSpeed))
                                (F32.of_int (Z.min 179 (k + 2))))
          (whole_range 1 179) = true.
Proof. vm_compute. reflexivity. Qed.

Lemma press_up_down_whole (k : Z) :
  (1 <= k <= 179)%Z ->
  F32.max (F32.of_int 1) (F32.sub (F32.of_int k) rotationSpeed)
  = F32.of_int (Z.max 1 (k - 2))
  /\ F32.min (F32.of_int 179) (F32.add (F32.of_int k) rotationSpeed)
     = F32.of_int (Z.min 179 (k + 2)).
Proof.
  intros Hk. pose proof press_up_checked as H. rewrite forallb_forall in H.
  specialize (H k (whole_range_In 1 179 k ltac:(lia))).
  apply andb_prop in H as [Hu Hd]. split; apply same_eq; assumption.
Qed.

Lemma phi_only_up (c : Camera) :
  cameraPhi (handle_keys only_up c)
  = F32.max (F32.of_int 1) (F32.sub (cameraPhi c) rotationSpeed).
Proof. reflexivity. Qed.

Lemma phi_only_down (c : Camera) :
  cameraPhi (handle_keys only_down c)
  = F32.min (F32.of_int 179) (F32.add (cameraPhi c) rotationSpeed).
Proof. reflexivity. Qed.

(** X16: holding one polar key from the start: after [n] frames of UP the
    polar angle is [max(1, 45 - 2n)], after [n] frames of DOWN it is
    [min(179, 45 + 2n)], for every [n]; so UP reaches the clamp 1 after 22
    frames and DOWN reaches 179 after 67 frames, and both stay there. *)
Theorem held_polar_key (n : nat) :
  cameraPhi (camera_after (repeat only_up n)) = F32.of_int (Z.max 1 (45 - 2 * Z.of_nat n))
  /\ cameraPhi (camera_after (repeat only_down n))
     = F32.of_int (Z.min 179 (45 + 2 * Z.of_nat n)).
Proof.
  induction n as [|n [IHu IHd]]; [split; reflexivity|].
  rewrite !repeat_snoc, !camera_after_snoc, phi_only_up, phi_only_down, IHu, IHd.
  destruct (press_up_down_whole (Z.max 1 (45 - 2 * Z.of_nat n)) ltac:(lia)) as [-> _].
  destruct (press_up_down_whole (Z.min 179 (45 + 2 * Z.of_nat n)) ltac:(lia)) as [_ ->].
  split; f_equal; lia.
Qed.

(** * Further facts at concrete runs *)

Lemma two_draws_per_printed_line_witness :
  rand_calls reset_frame = 2 * length (printed (trace reset_frame))
  /\ rand_calls reset_frame = 2.
Proof.
  split; [|reflexivity].
  apply (two_draws_per_printed_line libm_sin libm_cos glm_radians ansi_rand
           reset_frame []).
  apply reachable_update, reachable_init.
Defined.

Lemma direction_from_draws_witness :
  zenith (ray reset_frame) = F32.of_int 98 /\ azimuth (ray reset_frame) = F32.of_int 358.
Proof.
  pose proof (direction_from_draws libm_sin libm_cos glm_radians ansi_rand reset_frame
                (reachable_update _ _ _ _ [sphere_origin] World_init
                   (reachable_init _ _ _ _))) as D.
  assert (E : rand_calls reset_frame = 2) by (vm_compute; reflexivity).
  rewrite E in D. destruct D as (_ & Hz & Ha).
  rewrite Hz, Ha. split; vm_compute; reflexivity.
Defined.

Lemma sphere_order_is_irrelevant_witness :
  ray (exec (update libm_sin libm_cos glm_radians ansi_rand [sphere_280; sphere_origin])
         World_init)
  = ray (exec (update libm_sin libm_cos glm_radians ansi_rand [sphere_origin; sphere_280])
           World_init).
Proof.
  apply (sphere_order_is_irrelevant libm_sin libm_cos glm_radians ansi_rand World_init
           [sphere_280; sphere_origin] [sphere_origin; sphere_280]).
  apply perm_swap.
Defined.

Lemma repeated_sphere_is_dead_witness :
  In sphere_297 [sphere_280; sphere_281]
  /\ printed (trace (exec (update libm_sin libm_cos glm_radians ansi_rand
                             ([sphere_280; sphere_281] ++ sphere_297 :: [sphere_origin]))
                       World_init))
     = printed (trace (exec (update libm_sin libm_cos glm_radians ansi_rand
                               ([sphere_280; sphere_281] ++ [sphere_origin]))
                         World_init)).
Proof.
  assert (Hin : In sphere_297 [sphere_280; sphere_281])
    by (right; left; vm_compute; reflexivity).
  split; [exact Hin|].
  apply (repeated_sphere_is_dead libm_sin libm_cos glm_radians ansi_rand World_init
           [sphere_280; sphere_281] [sphere_origin] sphere_297 Hin).
Defined.

Lemma nan_length_is_absorbing_witness :
  let w' := ticks libm_sin libm_cos glm_radians ansi_rand [sphere_origin] 3 nan_world in
  currentLength (ray w') = S754_nan /\ rand_calls w' = 0 /\ printed (trace w') = [].
Proof.
  destruct (nan_length_is_absorbing libm_sin libm_cos glm_radians ansi_rand nan_world
              [sphere_origin] 3 eq_refl) as (Hl & _ & _ & Hr & Hp & _).
  split; [exact Hl|]. split; [exact Hr | exact Hp].
Defined.

Lemma azimuth_and_constants_witness :
  F32.lt (azimuth (ray reset_frame)) (F32.of_int 360) = true
  /\ speed (ray reset_frame) = F32.lit 5 3.
Proof.
  destruct (azimuth_and_constants libm_sin libm_cos glm_radians ansi_rand reset_frame
              (reachable_update _ _ _ _ [sphere_origin] World_init (reachable_init _ _ _ _)))
    as (_ & _ & Hlt & Hs & _).
  split; [exact Hlt | exact Hs].
Defined.

Lemma length_stays_a_number_witness :
  F32.is_finite (currentLength (ray (frames 3))) = true
  /\ currentLength (ray (frames 3)) = S754_finite false 16106127 (-30).
Proof.
  split; [|vm_compute; reflexivity].
  apply (length_stays_a_number libm_sin libm_cos glm_radians ansi_rand (frames 3)).
  unfold frames. simpl Nat.iter. repeat apply reachable_update. apply reachable_init.
Defined.

Lemma up_and_down_held_witness :
  cameraPhi (handle_keys up_and_down (camera_after (repeat only_up 30))) = F32.of_int 3.
Proof.
  apply (up_and_down_held (camera_after (repeat only_up 30))).
  apply camera_after_reachable.
Defined.

Lemma libm_trig_finite_on_mesh : trig_finite_on_mesh libm_sin libm_cos.
Proof.
  intros j Hj. vm_compute in Hj.
  repeat (destruct Hj as [<- | Hj]; [split; vm_compute; reflexivity|]).
  contradiction.
Qed.

Lemma first_ring_is_a_point_witness :
  exists rest,
    generateVertices libm_sin libm_cos sphere_280
    = flat_map (fun j => mesh_vertex libm_sin libm_cos sphere_280 F32.zero (mesh_theta 16 j))
               (upto 16) ++ rest.
Proof.
  destruct (first_ring_is_a_point libm_sin libm_cos sphere_280 eq_refl eq_refl
              libm_trig_finite_on_mesh) as (rest & H & _).
  exists rest. exact H.
Defined.

Lemma point_sphere_is_hit_witness :
  intersectsSphere (ray first_frame) (x (ray first_frame)) (y (ray first_frame))
                   (z (ray first_frame)) F32.zero = true.
Proof.
  apply (point_sphere_is_hit (ray first_frame)); vm_compute; reflexivity.
Defined.
